(** * subconverter-failover: health-check scheduler, probes and notifier

    A shallow embedding of three source modules of the failover worker:

    - [PriorityHealthCheck] (version extraction, fast and full probe),
    - [HealthCheckConcurrencyController] (admission, queue, stats, reset),
    - [ResilientTelegramNotifier] (retry loop, backoff, fallback),

    followed by the properties checked against them. *)

From Stdlib Require Import ZArith NArith List Bool Ascii String Lia.
From stdpp Require Import base gmap strings list fin_maps pretty.
Import ListNotations.

Local Open Scope Z_scope.

(* ===================================================================== *)
(** ** JavaScript strings *)
(* ===================================================================== *)

(** A JavaScript string is a sequence of UTF-16 code units; [length],
    [trim], [includes], [split] and the regular expressions of the source
    (none has the [u] flag) all work on code units. *)
Module JsString.

Abbreviation jsstring := (list N).

(** A source literal, as the code units of its (ASCII) characters. *)
Definition lit (s : string) : jsstring :=
  List.map N_of_ascii (list_ascii_of_string s).

Definition unit_eqb (a b : N) : bool := N.eqb a b.

(** [\d] *)
Definition is_digit (c : N) : bool := (48 <=? c)%N && (c <=? 57)%N.

Definition is_upper (c : N) : bool := (65 <=? c)%N && (c <=? 90)%N.
Definition is_lower (c : N) : bool := (97 <=? c)%N && (c <=? 122)%N.

(** [\w]: [A-Za-z0-9_].  Under [/i] without [/u] the class is the same
    set: Canonicalize never maps a code unit >= 128 to one below 128. *)
Definition is_word (c : N) : bool :=
  is_upper c || is_lower c || is_digit c || (c =? 95)%N.

(** [\s], and what [trim] strips: WhiteSpace and LineTerminator. *)
Definition is_space (c : N) : bool :=
  ((9 <=? c)%N && (c <=? 13)%N) || (c =? 32)%N || (c =? 160)%N
  || (c =? 5760)%N || ((8192 <=? c)%N && (c <=? 8202)%N)
  || (c =? 8232)%N || (c =? 8233)%N || (c =? 8239)%N || (c =? 8287)%N
  || (c =? 12288)%N || (c =? 65279)%N.

(** Comparison of an input unit with a pattern character.  With [/i]
    both sides go through Canonicalize (upper-casing); the pattern
    characters of this program are ASCII letters and punctuation, and
    the only units canonicalized to an ASCII letter are that letter in
    either case. *)
Definition upcase (c : N) : N := if is_lower c then (c - 32)%N else c.

Definition char_eqb (icase : bool) (p c : N) : bool :=
  if icase then unit_eqb (upcase p) (upcase c) else unit_eqb p c.

(** [String.prototype.toLowerCase], on the units that matter for an
    ASCII needle: ASCII capitals, U+212A KELVIN SIGN (to k) and U+0130
    (to i followed by U+0307) are the only units whose lower-casing
    holds an ASCII letter; every other unit is mapped outside ASCII and
    is kept as it is here. *)
Definition lower_unit (c : N) : jsstring :=
  if is_upper c then [(c + 32)%N]
  else if (c =? 8490)%N then [107%N]
  else if (c =? 304)%N then [105%N; 775%N]
  else [c].

Definition toLowerCase (s : jsstring) : jsstring := flat_map lower_unit s.

Fixpoint startsWith (s p : jsstring) : bool :=
  match p, s with
  | [], _ => true
  | a :: p', c :: s' => unit_eqb a c && startsWith s' p'
  | _ :: _, [] => false
  end.

(** [s.includes(p)] *)
Fixpoint includes (s p : jsstring) : bool :=
  startsWith s p ||
  match s with
  | [] => false
  | _ :: s' => includes s' p
  end.

Fixpoint trimStart (s : jsstring) : jsstring :=
  match s with
  | c :: s' => if is_space c then trimStart s' else s
  | [] => []
  end.

Definition trimEnd (s : jsstring) : jsstring := rev (trimStart (rev s)).

(** [s.trim()] *)
Definition trim (s : jsstring) : jsstring := trimEnd (trimStart s).

(** [s.split(/\s+/)]: [insep] tells that the scan is inside a run of
    white space, [cur] is the current piece, reversed.  A separator at
    either end of the string yields an empty piece there, as in
    JavaScript. *)
Fixpoint split_ws (insep : bool) (cur : jsstring) (s : jsstring)
  : list jsstring :=
  match s with
  | [] => [rev cur]
  | c :: s' =>
      if is_space c
      then if insep then split_ws true cur s'
           else rev cur :: split_ws true [] s'
      else split_ws false (c :: cur) s'
  end.

Definition split (s : jsstring) : list jsstring := split_ws false [] s.

End JsString.

(* ===================================================================== *)
(** ** The regular expressions of the source *)
(* ===================================================================== *)

(** The fragment of ECMAScript regular expressions that the program uses:
    literals, the classes [\d] [\w] [\s], greedy [+] on a class, greedy
    [?] on a group, concatenation.  Matching follows the backtracking
    order of the language: [matches] lists the possible remainders of the
    input in the order in which the matcher tries them, so the head of the
    list is the match that JavaScript reports. *)
Module Regex.
Import JsString.

Inductive cls := Digit | Word | Space.

Definition in_cls (k : cls) (c : N) : bool :=
  match k with
  | Digit => is_digit c
  | Word => is_word c
  | Space => is_space c
  end.

Inductive regex :=
| Lit (s : string)
| Plus (k : cls)
| Cat (r1 r2 : regex)
| Opt (r : regex).

Fixpoint match_lit (icase : bool) (p s : jsstring) : option jsstring :=
  match p, s with
  | [], _ => Some s
  | a :: p', c :: s' =>
      if char_eqb icase a c then match_lit icase p' s' else None
  | _ :: _, [] => None
  end.

(** Greedy [k+]: the longest run first, then shorter ones. *)
Fixpoint match_plus (k : cls) (s : jsstring) : list jsstring :=
  match s with
  | c :: s' => if in_cls k c then match_plus k s' ++ [s'] else []
  | [] => []
  end.

Fixpoint matches (icase : bool) (r : regex) (s : jsstring)
  : list jsstring :=
  match r with
  | Lit p =>
      match match_lit icase (lit p) s with
      | Some rest => [rest]
      | None => []
      end
  | Plus k => match_plus k s
  | Cat r1 r2 => flat_map (matches icase r2) (matches icase r1 s)
  | Opt r1 => matches icase r1 s ++ [s]
  end.

Record pattern := { re : regex; icase : bool }.

(** The match anchored at the start of [s], as the matched text. *)
Definition match_here (p : pattern) (s : jsstring) : option jsstring :=
  match matches (icase p) (re p) s with
  | rest :: _ => Some (firstn (length s - length rest) s)
  | [] => None
  end.

(** [s.match(p)] for a pattern without the [g] flag whose only group
    encloses the whole pattern: the leftmost match, [match[1]]. *)
Fixpoint search (p : pattern) (s : jsstring) : option jsstring :=
  match match_here p s with
  | Some m => Some m
  | None =>
      match s with
      | [] => None
      | _ :: s' => search p s'
      end
  end.

(** [p.test(s)] *)
Definition test (p : pattern) (s : jsstring) : bool :=
  match search p s with Some _ => true | None => false end.

End Regex.

(* ===================================================================== *)
(** ** PriorityHealthCheck.extractVersionFromText *)
(* ===================================================================== *)

Module Version.
Import JsString Regex.

(** What a caller may pass for [text]: the method is written for any
    JavaScript value. *)
Inductive jsvalue :=
| JUndefined
| JNull
| JBoolean (b : bool)
| JNumber (n : Z)
| JString (s : jsstring)
| JObject.

Definition sentinel : jsstring := lit "subconverter".

Definition version_core : regex :=
  Cat (Lit "v") (Cat (Plus Digit) (Cat (Lit ".") (Cat (Plus Digit)
    (Cat (Lit ".") (Plus Digit))))).

Definition number_core : regex :=
  Cat (Plus Digit) (Cat (Lit ".") (Cat (Plus Digit)
    (Cat (Lit ".") (Plus Digit)))).

Definition build_id : regex := Cat (Lit "-") (Plus Word).

(** The six entries of [versionPatterns], in source order. *)
Definition versionPatterns : list pattern :=
  [ (* /(subconverter\s+v[\d]+\.[\d]+\.[\d]+-[\w]+(?:\s+backend)?)/i *)
    {| re := Cat (Lit "subconverter") (Cat (Plus Space) (Cat version_core
               (Cat build_id (Opt (Cat (Plus Space) (Lit "backend"))))));
       icase := true |};
    (* /(v[\d]+\.[\d]+\.[\d]+-[\w]+)/i *)
    {| re := Cat version_core build_id; icase := true |};
    (* /(subconverter\s+v[\d]+\.[\d]+\.[\d]+)/i *)
    {| re := Cat (Lit "subconverter") (Cat (Plus Space) version_core);
       icase := true |};
    (* /([\d]+\.[\d]+\.[\d]+-[\w]+)/ *)
    {| re := Cat number_core build_id; icase := false |};
    (* /([\d]+\.[\d]+\.[\d]+)/ *)
    {| re := number_core; icase := false |};
    (* /(subconverter)/i *)
    {| re := Lit "subconverter"; icase := true |} ].

(** [/^\d/.test(version)] *)
Definition starts_with_digit (version : jsstring) : bool :=
  match version with
  | c :: _ => is_digit c
  | [] => false
  end.

(** The body of [if (match) { ... }]. *)
Definition unify_format (version : jsstring) : jsstring :=
  if includes (toLowerCase version) (lit "subconverter") then version
  else if startsWith version (lit "v") then lit "subconverter " ++ version
  else if starts_with_digit version then lit "subconverter v" ++ version
  else version.

(** [for (const pattern of versionPatterns)]: the first pattern that
    matches decides. *)
Fixpoint first_pattern (ps : list pattern) (text : jsstring)
  : option jsstring :=
  match ps with
  | [] => None
  | p :: ps' =>
      match search p text with
      | Some m => Some (unify_format (trim m))
      | None => first_pattern ps' text
      end
  end.

(** [/[\d]+\.[\d]+/] *)
Definition dotted_number : pattern :=
  {| re := Cat (Plus Digit) (Cat (Lit ".") (Plus Digit)); icase := false |}.

Definition looks_like_version (word : jsstring) : bool :=
  includes word (lit "v") || test dotted_number word.

(** [for (const word of words)] *)
Fixpoint scan_words (words : list jsstring) : jsstring :=
  match words with
  | [] => sentinel
  | word :: rest =>
      if looks_like_version word && (length word <=? 30)%nat
      then lit "subconverter " ++ word
      else scan_words rest
  end.

Definition extract_string (raw : jsstring) : jsstring :=
  let text := trim raw in
  match first_pattern versionPatterns text with
  | Some v => v
  | None =>
      if (length text <=? 50)%nat
      then match text with [] => sentinel | _ => text end
      else scan_words (split text)
  end.

(** [if (!text || typeof text !== 'string') return 'subconverter'] *)
Definition extractVersionFromText (text : jsvalue) : jsstring :=
  match text with
  | JString [] => sentinel
  | JString s => extract_string s
  | _ => sentinel
  end.

(** A regular expression every match of which starts with a unit that is
    not white space (so [trim] keeps the start of the match). *)
Fixpoint head_solid (icase : bool) (r : regex) : bool :=
  match r with
  | Lit p =>
      match lit p with
      | a :: _ =>
          negb (is_space a) &&
          (if icase then negb (is_space (upcase a)) else true)
      | [] => false
      end
  | Plus Space => false
  | Plus _ => true
  | Cat r1 _ => head_solid icase r1
  | Opt _ => false
  end.

End Version.


(* ===================================================================== *)
(** ** Completions of asynchronous functions *)
(* ===================================================================== *)

Module Js.
Import JsString.

(** A thrown [Error]: the two properties the program reads. *)
Record error := { name : jsstring; message : jsstring }.

(** How an [async] function or a [try] block ends. *)
Inductive completion (A : Type) :=
| Normal (a : A)
| Throw (e : error).

Arguments Normal {A} a.
Arguments Throw {A} e.

(** [try { c } catch (e) { handler e }] *)
Definition try_catch {A} (c : completion A) (handler : error -> completion A)
  : completion A :=
  match c with
  | Normal a => Normal a
  | Throw e => handler e
  end.

(** [const x = await c; k x] inside an [async] function. *)
Definition await {A B} (c : completion A) (k : A -> completion B)
  : completion B :=
  match c with
  | Normal a => k a
  | Throw e => Throw e
  end.

End Js.

(* ===================================================================== *)
(** ** HealthCheckConcurrencyController *)
(* ===================================================================== *)

(** The controller object together with the part of the JavaScript run
    time that its methods act on: the clock read by [Date.now()], the
    check functions that were called and have not settled yet, the
    pending [setTimeout] callbacks and the promises handed to callers.
    One event of the run time (a call of [scheduleCheck], the settling of
    a check function, a timer callback) runs to its end before the next
    starts, as the event loop does; the clock does not move inside an
    event. *)
Module Controller.
Import JsString Js.

Inductive status := Running | Completed | Failed.

(** A value of the [activeChecks] map.  Every property is optional:
    [{...this.activeChecks.get(taskKey), status: ...}] spreads
    [undefined] when the key is no longer in the map. *)
Record CheckInfo := {
  ci_url : option string;
  ci_requestId : option string;
  ci_startTime : option Z;
  ci_status : status;
  ci_endTime : option Z;
  ci_success : option bool;
  ci_error : option jsstring
}.

Record Stats := {
  totalStarted : Z;
  totalCompleted : Z;
  maxActive : Z;
  errors : Z;
  successes : Z;
  lastReset : Z;        (* the instant whose ISO rendering is stored *)
  lastResetTime : Z
}.

Record Config := { maxConcurrent : Z }.

(** The closure [task] built by one call of [scheduleCheck]: it captures
    [taskKey], [url], [requestId] and the caller's [checkFn]; [caller]
    numbers the call, and so names the closure, its check function and
    the promise returned to the caller. *)
Record Task := {
  taskKey : string;
  url : string;
  requestId : string;
  caller : nat
}.

Record QueueItem := {
  item_task : Task;
  item_url : string;
  item_requestId : string;
  addedTime : Z
}.

Record Controller := {
  config : Config;
  activeChecks : gmap string CheckInfo;
  queue : list QueueItem;
  stats : Stats
}.

Section Runtime.
Context {R : Type}.   (* what a check function resolves to *)

Record Runtime := {
  this : Controller;
  clock : Z;
  executing : list Task;
  invoked : list Task;
  timers : list (Z * string);
  promises : list (nat * completion R);
  calls : nat
}.

Definition fresh_stats (now : Z) : Stats :=
  {| totalStarted := 0; totalCompleted := 0; maxActive := 0;
     errors := 0; successes := 0;
     lastReset := now; lastResetTime := now |}.

(** [constructor(config)] *)
Definition new_controller (cfg : option Config) (now : Z) : Controller :=
  {| config := match cfg with Some c => c | None => {| maxConcurrent := 5 |} end;
     activeChecks := ∅;
     queue := [];
     stats := fresh_stats now |}.

(** [reset()] *)
Definition reset (now : Z) (c : Controller) : Controller :=
  {| config := config c;
     activeChecks := ∅;
     queue := [];
     stats := fresh_stats now |}.

Definition boot (cfg : option Config) (now : Z) : Runtime :=
  {| this := new_controller cfg now; clock := now;
     executing := []; invoked := []; timers := []; promises := [];
     calls := 0 |}.

Definition with_this (c : Controller) (rt : Runtime) : Runtime :=
  {| this := c; clock := clock rt; executing := executing rt;
     invoked := invoked rt; timers := timers rt; promises := promises rt;
     calls := calls rt |}.

Definition with_queue (q : list QueueItem) (rt : Runtime) : Runtime :=
  with_this {| config := config (this rt);
               activeChecks := activeChecks (this rt);
               queue := q;
               stats := stats (this rt) |} rt.

Definition active_size (rt : Runtime) : Z :=
  Z.of_nat (size (activeChecks (this rt))).

Definition has_capacity (rt : Runtime) : bool :=
  active_size rt <? maxConcurrent (config (this rt)).

(** The synchronous start of [task()]: the map entry, the two counters,
    and the call of [checkFn], which now executes until it settles. *)
Definition startTask (t : Task) (rt : Runtime) : Runtime :=
  let c := this rt in
  let active :=
    <[taskKey t := {| ci_url := Some (url t);
                      ci_requestId := Some (requestId t);
                      ci_startTime := Some (clock rt);
                      ci_status := Running;
                      ci_endTime := None; ci_success := None;
                      ci_error := None |}]> (activeChecks c) in
  let st := stats c in
  {| this :=
       {| config := config c;
          activeChecks := active;
          queue := queue c;
          stats :=
            {| totalStarted := totalStarted st + 1;
               totalCompleted := totalCompleted st;
               maxActive := Z.max (maxActive st) (Z.of_nat (size active));
               errors := errors st; successes := successes st;
               lastReset := lastReset st;
               lastResetTime := lastResetTime st |} |};
     clock := clock rt;
     executing := executing rt ++ [t];
     invoked := invoked rt ++ [t];
     timers := timers rt;
     promises := promises rt;
     calls := calls rt |}.

(** [`${url}-${Date.now()}`] *)
Definition make_key (u : string) (now : Z) : string :=
  u +:+ "-" +:+ pretty now.

Definition reset_window : Z := 5 * 60 * 1000.

(** The first statement of [scheduleCheck]. *)
Definition lazy_reset (rt : Runtime) : Runtime :=
  if reset_window <? clock rt - lastResetTime (stats (this rt))
  then with_this (reset (clock rt) (this rt)) rt
  else rt.

(** The rest of [scheduleCheck]: build the closure, then run it or queue
    it. *)
Definition run_or_enqueue (u req : string) (rt : Runtime) : Runtime :=
  let t := {| taskKey := make_key u (clock rt); url := u;
              requestId := req; caller := calls rt |} in
  let rt' :=
    {| this := this rt; clock := clock rt; executing := executing rt;
       invoked := invoked rt; timers := timers rt;
       promises := promises rt; calls := S (calls rt) |} in
  if has_capacity rt'
  then startTask t rt'
  else with_queue (queue (this rt') ++
                   [{| item_task := t; item_url := u;
                       item_requestId := req;
                       addedTime := clock rt |}]) rt'.

Definition scheduleCheck (u req : string) (rt : Runtime) : Runtime :=
  run_or_enqueue u req (lazy_reset rt).

Definition stale_bound : Z := 30000.

(** [item => now - item.addedTime < 30000] *)
Definition keeps (now : Z) (item : QueueItem) : Prop :=
  now - addedTime item < stale_bound.

#[global] Instance keeps_dec now item : Decision (keeps now item) :=
  decide (now - addedTime item < stale_bound).

(** The [while] loop of [processQueue]; [items] is [this.queue]. *)
Fixpoint drain (items : list QueueItem) (rt : Runtime) : Runtime :=
  match items with
  | [] => rt
  | item :: rest =>
      if has_capacity rt
      then drain rest (startTask (item_task item) (with_queue rest rt))
      else rt
  end.

Definition processQueue (rt : Runtime) : Runtime :=
  let kept := filter (keeps (clock rt)) (queue (this rt)) in
  drain kept (with_queue kept rt).

(** The map entry written when the check function settles. *)
Definition settled_info (prev : option CheckInfo) (now : Z)
    (o : completion R) : CheckInfo :=
  {| ci_url := prev ≫= ci_url;
     ci_requestId := prev ≫= ci_requestId;
     ci_startTime := prev ≫= ci_startTime;
     ci_status := match o with Normal _ => Completed | Throw _ => Failed end;
     ci_endTime := Some now;
     ci_success := Some (match o with Normal _ => true | Throw _ => false end);
     ci_error := match o with
                 | Normal _ => prev ≫= ci_error
                 | Throw e => Some (message e)
                 end |}.

Definition is_caller (who : nat) (t : Task) : bool := Nat.eqb (caller t) who.

(** What [task()] does after [await checkFn(url, requestId)]: the
    [try]/[catch] branch, then [finally], which arms the 100 ms timer.
    The completion goes on to the caller's promise unchanged. *)
Definition settle (who : nat) (o : completion R) (rt : Runtime) : Runtime :=
  match List.find (is_caller who) (executing rt) with
  | None => rt
  | Some t =>
      let c := this rt in
      let st := stats c in
      {| this :=
           {| config := config c;
              activeChecks :=
                <[taskKey t :=
                    settled_info (activeChecks c !! taskKey t) (clock rt) o]>
                  (activeChecks c);
              queue := queue c;
              stats :=
                {| totalStarted := totalStarted st;
                   totalCompleted := totalCompleted st;
                   maxActive := maxActive st;
                   errors := match o with
                             | Normal _ => errors st
                             | Throw _ => errors st + 1
                             end;
                   successes := match o with
                                | Normal _ => successes st + 1
                                | Throw _ => successes st
                                end;
                   lastReset := lastReset st;
                   lastResetTime := lastResetTime st |} |};
         clock := clock rt;
         executing :=
           filter (fun t' => caller t' <> who) (executing rt);
         invoked := invoked rt;
         timers := timers rt ++ [(clock rt + 100, taskKey t)];
         promises := promises rt ++ [(who, o)];
         calls := calls rt |}
  end.

(** The callback of [setTimeout(..., 100)]. *)
Definition cleanup (key : string) (rt : Runtime) : Runtime :=
  let c := this rt in
  let st := stats c in
  processQueue
    (with_this
       {| config := config c;
          activeChecks := delete key (activeChecks c);
          queue := queue c;
          stats :=
            {| totalStarted := totalStarted st;
               totalCompleted := totalCompleted st + 1;
               maxActive := maxActive st;
               errors := errors st; successes := successes st;
               lastReset := lastReset st;
               lastResetTime := lastResetTime st |} |} rt).

(** The pending timer number [k] fires, if it is due. *)
Definition fire (k : nat) (rt : Runtime) : Runtime :=
  match timers rt !! k with
  | Some (due, key) =>
      if due <=? clock rt
      then cleanup key
             {| this := this rt; clock := clock rt;
                executing := executing rt; invoked := invoked rt;
                timers := delete k (timers rt);
                promises := promises rt; calls := calls rt |}
      else rt
  | None => rt
  end.

Definition advance (ms : N) (rt : Runtime) : Runtime :=
  {| this := this rt; clock := clock rt + Z.of_N ms;
     executing := executing rt; invoked := invoked rt;
     timers := timers rt; promises := promises rt; calls := calls rt |}.

(** What can happen to the controller. *)
Inductive Event :=
| Call (u req : string)               (* scheduleCheck(u, checkFn, req) *)
| Settle (who : nat) (o : completion R)
| Timer (k : nat)
| CallReset                               (* the public reset() *)
| Elapse (ms : N).

Definition step (e : Event) (rt : Runtime) : Runtime :=
  match e with
  | Call u req => scheduleCheck u req rt
  | Settle who o => settle who o rt
  | Timer k => fire k rt
  | CallReset => with_this (reset (clock rt) (this rt)) rt
  | Elapse ms => advance ms rt
  end.

Definition run (es : list Event) (rt : Runtime) : Runtime :=
  fold_left (fun rt e => step e rt) es rt.

(** The items a drain throws away: those 30 seconds old or older. *)
Definition stale (now : Z) (item : QueueItem) : Prop :=
  stale_bound <= now - addedTime item.

(** The numbers of the calls whose task is in the queue, whose check
    function was called, is executing, and whose promise is settled. *)
Definition queued (rt : Runtime) : list nat :=
  (fun item => caller (item_task item)) <$> queue (this rt).

Definition callers (ts : list Task) : list nat := caller <$> ts.

Definition promised (rt : Runtime) : list nat := fst <$> promises rt.

(** The bookkeeping of call numbers that every run keeps: numbers are
    handed out in order, a queued task is queued once and was not
    started, and only started tasks execute or settle. *)
Record consistent (rt : Runtime) : Prop := {
  queued_known : forall c, c ∈ queued rt -> (c < calls rt)%nat;
  invoked_known : forall c, c ∈ callers (invoked rt) -> (c < calls rt)%nat;
  queued_once : NoDup (queued rt);
  queued_waiting : forall c, c ∈ queued rt -> c ∉ callers (invoked rt);
  executing_invoked :
    forall c, c ∈ callers (executing rt) -> c ∈ callers (invoked rt);
  promised_invoked : forall c, c ∈ promised rt -> c ∈ callers (invoked rt)
}.

(** A call the run time holds no reference to any more. *)
Record dropped (c : nat) (rt : Runtime) : Prop := {
  dropped_known : (c < calls rt)%nat;
  dropped_queue : c ∉ queued rt;
  dropped_invoked : c ∉ callers (invoked rt);
  dropped_executing : c ∉ callers (executing rt);
  dropped_promise : c ∉ promised rt
}.

(** The keys of the tasks that hold, or should hold, an entry of
    [activeChecks]: those executing and those settled whose clean-up
    timer is pending; and the keys of the queued tasks. *)
Definition live_keys (rt : Runtime) : list string :=
  (taskKey <$> executing rt) ++ (snd <$> timers rt).

Definition queued_keys (rt : Runtime) : list string :=
  (fun item => taskKey (item_task item)) <$> queue (this rt).

(** An event that does not reset the controller and, if it is a call,
    does not build a key that a queued, executing or settled task still
    uses. *)
Definition quiet_step (e : Event) (rt : Runtime) : Prop :=
  match e with
  | Call u _ =>
      clock rt - lastResetTime (stats (this rt)) <= reset_window /\
      make_key u (clock rt) ∉ queued_keys rt ++ live_keys rt
  | CallReset => False
  | _ => True
  end.

Fixpoint quiet (es : list Event) (rt : Runtime) : Prop :=
  match es with
  | [] => True
  | e :: es' => quiet_step e rt /\ quiet es' (step e rt)
  end.

(** What holds of a run as long as it is quiet. *)
Record bounded (rt : Runtime) : Prop := {
  keys_once : NoDup (queued_keys rt ++ live_keys rt);
  keys_active : dom (activeChecks (this rt)) = list_to_set (live_keys rt);
  active_bound :
    active_size rt <= Z.max 0 (maxConcurrent (config (this rt)));
  callers_once : NoDup (queued rt ++ callers (executing rt));
  callers_known :
    forall c, c ∈ queued rt ++ callers (executing rt) -> (c < calls rt)%nat;
  started_completed :
    totalStarted (stats (this rt))
    = totalCompleted (stats (this rt)) + Z.of_nat (length (live_keys rt))
}.

End Runtime.

Arguments Runtime R : clear implicits.
Arguments Event R : clear implicits.

End Controller.

(* ===================================================================== *)
(** ** PriorityHealthCheck: the fast and the full probe *)
(* ===================================================================== *)

Module Probe.
Import JsString Js Version.

Inductive Priority := high | normal.

(** [response.status] and the completion of [response.text()]. *)
Record Response := {
  resp_status : Z;
  resp_text : completion jsstring
}.

(** What one run of a check function meets: the completion of [fetch]
    (a time-out aborts the request, and [fetch] then rejects with an error
    named [AbortError]) and the clock readings it takes. *)
Record Exchange := {
  fetched : completion Response;
  startTime : Z;      (* Date.now() before fetch *)
  fetchedAt : Z;      (* Date.now() after fetch *)
  returnedAt : Z      (* new Date() of the returned object *)
}.

(** '未知版本' *)
Definition unknown_version : jsstring := [26410; 30693; 29256; 26412]%N.

Section Checks.
(** [calculateResponseTimeScore] belongs to [utils.js]; it is a pure
    function of the response time (its second argument is the fixed
    environment).  [score0] is the number [0]. *)
Context {score : Type} (score0 : score)
        (calculateResponseTimeScore : Z -> score).

Record HealthCheckResult := {
  healthy : bool;
  responseTime : option Z;
  responseTimeScore : score;
  status : Z;
  version : jsstring;
  priority : Priority;
  error : option jsstring;
  timestamp : Z
}.

(** The [checkFn] of [priorityCheck]. *)
Definition priorityCheckFn (x : Exchange) : completion HealthCheckResult :=
  try_catch
    (await (fetched x) (fun response =>
       let rt := fetchedAt x - startTime x in
       if resp_status response =? 200 then
         try_catch
           (await (resp_text response) (fun text =>
              let v := extractVersionFromText (JString text) in
              let s := calculateResponseTimeScore rt in
              Normal {| healthy := true;
                        responseTime := Some rt;
                        responseTimeScore := s;
                        status := resp_status response;
                        version := v;
                        priority := high;
                        error := None;
                        timestamp := returnedAt x |}))
           (fun textError =>
              Normal {| healthy := true;
                        responseTime := Some rt;
                        responseTimeScore := calculateResponseTimeScore rt;
                        status := resp_status response;
                        version := lit "subconverter";
                        priority := high;
                        error := None;
                        timestamp := returnedAt x |})
       else
         Normal {| healthy := false;
                   responseTime := Some rt;
                   responseTimeScore := score0;
                   status := resp_status response;
                   version := unknown_version;
                   priority := high;
                   error := None;
                   timestamp := returnedAt x |}))
    (fun e =>
       Normal {| healthy := false;
                 responseTime := None;
                 responseTimeScore := score0;
                 status := 0;
                 version := unknown_version;
                 priority := high;
                 error := Some (name e);
                 timestamp := returnedAt x |}).

(** The [checkFn] of [fullCheck]. *)
Definition fullCheckFn (x : Exchange) : completion HealthCheckResult :=
  try_catch
    (await (fetched x) (fun response =>
       let rt := fetchedAt x - startTime x in
       if resp_status response =? 200 then
         try_catch
           (await (resp_text response) (fun text =>
              let v := extractVersionFromText (JString text) in
              let h := includes (toLowerCase text) (lit "subconverter")
                       || (resp_status response =? 200) in
              let s := calculateResponseTimeScore rt in
              Normal {| healthy := h;
                        responseTime := Some rt;
                        responseTimeScore := s;
                        status := resp_status response;
                        version := v;
                        priority := normal;
                        error := None;
                        timestamp := returnedAt x |}))
           (fun textError =>
              Normal {| healthy := false;
                        responseTime := Some rt;
                        responseTimeScore := calculateResponseTimeScore rt;
                        status := resp_status response;
                        version := unknown_version;
                        priority := normal;
                        error := None;
                        timestamp := returnedAt x |})
       else
         Normal {| healthy := false;
                   responseTime := Some rt;
                   responseTimeScore := score0;
                   status := resp_status response;
                   version := unknown_version;
                   priority := normal;
                   error := None;
                   timestamp := returnedAt x |}))
    (fun e =>
       Normal {| healthy := false;
                 responseTime := None;
                 responseTimeScore := score0;
                 status := 0;
                 version := unknown_version;
                 priority := normal;
                 error := Some (name e);
                 timestamp := returnedAt x |}).

(** [priorityCheck] and [fullCheck] hand their check function to the
    shared controller; the function runs when the controller starts the
    task, and its completion settles the task. *)
Definition priorityCheck (url requestId : string)
    (rt : Controller.Runtime HealthCheckResult)
  : Controller.Runtime HealthCheckResult :=
  Controller.scheduleCheck url requestId rt.

Definition fullCheck (url requestId : string)
    (rt : Controller.Runtime HealthCheckResult)
  : Controller.Runtime HealthCheckResult :=
  Controller.scheduleCheck url requestId rt.

(** The content sniff of the full check on its own: a case-insensitive
    search for the service name in the body. *)
Definition passes_sniff (text : jsstring) : bool :=
  includes (toLowerCase text) (lit "subconverter").

End Checks.

Arguments HealthCheckResult score : clear implicits.

End Probe.

(* ===================================================================== *)
(** ** ResilientTelegramNotifier *)
(* ===================================================================== *)

Module Notifier.
Import JsString Js.

(** [notificationData.type], as the data model has it. *)
Inductive NotificationType := request | health_change | error.

(** The environment bindings the notifier reads.  [getConfig] belongs to
    [utils.js]; the three [NOTIFY_ON_*] fields are what it returns for the
    three keys, as truth values. *)
Record Env := {
  TG_BOT_TOKEN : option string;
  TG_CHAT_ID : option string;
  NOTIFY_ON_REQUEST : bool;
  NOTIFY_ON_HEALTH_CHANGE : bool;
  NOTIFY_ON_ERROR : bool
}.

(** The fields set by the constructor. *)
Record Notifier := {
  env : Env;
  maxRetries : Z;
  retryDelay : Z;
  fallbackEnabled : bool
}.

Definition new_notifier (e : Env) : Notifier :=
  {| env := e; maxRetries := 3; retryDelay := 1000;
     fallbackEnabled := true |}.

(** [!x] is false for a non-empty string only. *)
Definition truthy (x : option string) : bool :=
  match x with
  | Some s => negb (String.eqb s "")
  | None => false
  end.

Definition notificationSettings (e : Env) (t : NotificationType) : bool :=
  match t with
  | request => NOTIFY_ON_REQUEST e
  | health_change => NOTIFY_ON_HEALTH_CHANGE e
  | error => NOTIFY_ON_ERROR e
  end.

(** What the network does with one [fetch] of the [try] block. *)
Inductive Delivery :=
| FetchRejects (e : Js.error)
| HttpReply (status : Z) (statusText : jsstring)     (* response.ok false *)
| JsonRejects (e : Js.error)
| ApiReply (ok : bool) (description : option jsstring).

(** The [try] block of one attempt after the [fetch]: it completes
    normally when the API answered [ok], and throws otherwise. *)
Definition attempt_body (d : Delivery) : completion unit :=
  match d with
  | FetchRejects e => Throw e
  | HttpReply status statusText =>
      Throw {| name := lit "Error";
               message := lit ("HTTP " +:+ pretty status +:+ ": ")
                          ++ statusText |}
  | JsonRejects e => Throw e
  | ApiReply true _ => Normal tt
  | ApiReply false description =>
      Throw {| name := lit "Error";
               (* `Telegram API错误: ${result.description || '未知错误'}` *)
               message := lit "Telegram API" ++ [38169; 35823]%N ++ lit ": "
                          ++ match description with
                             | Some (c :: d') => c :: d'
                             | _ => [26410; 30693; 38169; 35823]%N
                             end |}
  end.

(** What [sendNotification] does to the outside, in order. *)
Inductive Effect :=
| Post (attempt : Z)                         (* the fetch of an attempt *)
| Sleep (ms : Z)                             (* the awaited setTimeout *)
| Fallback                                   (* fallbackNotification *)
| Save (message : jsstring) (success : bool) (* saveNotificationToDB *).

Record Outcome := {
  success : bool;
  reason : option jsstring;
  attempt : option Z;
  error_message : option jsstring;
  usedFallback : option bool
}.

Section Send.
(** [formatTelegramMessage] belongs to [utils.js]. *)
Context {Data : Type} (formatTelegramMessage : Data -> jsstring).

(** The [for] loop from [attempt] on; [network k] is what the fetch of
    attempt [k] meets.  [None] is the loop running out without a
    [return].  The loop makes at most [maxRetries] rounds, which is the
    fuel [sendNotification] gives it. *)
Fixpoint attempts (n : Notifier) (network : Z -> Delivery) (data : Data)
    (fuel : nat) (attempt : Z) : option Outcome * list Effect :=
  match fuel with
  | O => (None, [])
  | S fuel' =>
      if attempt <=? maxRetries n then
        let message := formatTelegramMessage data in
        match attempt_body (network attempt) with
        | Normal _ =>
            (Some {| success := true; reason := None;
                     attempt := Some attempt; error_message := None;
                     usedFallback := None |},
             [Post attempt; Save message true])
        | Throw e =>
            if attempt <? maxRetries n then
              let delay := retryDelay n * 2 ^ (attempt - 1) in
              let '(out, effects) :=
                attempts n network data fuel' (attempt + 1) in
              (out, Post attempt :: Sleep delay :: effects)
            else
              (Some {| success := false; reason := None;
                       attempt := Some attempt;
                       error_message := Some (Js.message e);
                       usedFallback := Some (fallbackEnabled n) |},
               Post attempt ::
               (if fallbackEnabled n then [Fallback] else []) ++
               (* `发送失败: ${error.message}` *)
               [Save ([21457; 36865; 22833; 36133]%N ++ lit ": "
                      ++ Js.message e) false])
        end
      else (None, [])
  end.

Definition sendNotification (n : Notifier) (network : Z -> Delivery)
    (ty : NotificationType) (data : Data) : option Outcome * list Effect :=
  if negb (truthy (TG_BOT_TOKEN (env n))) || negb (truthy (TG_CHAT_ID (env n)))
  then
    (* '配置不完整' *)
    (Some {| success := false;
             reason := Some [37197; 32622; 19981; 23436; 25972]%N;
             attempt := None; error_message := None;
             usedFallback := None |}, [])
  else if negb (notificationSettings (env n) ty)
  then
    (* '通知类型已禁用' *)
    (Some {| success := false;
             reason := Some [36890; 30693; 31867; 22411; 24050; 31105; 29992]%N;
             attempt := None; error_message := None;
             usedFallback := None |}, [])
  else attempts n network data (Z.to_nat (maxRetries n)) 1.

End Send.

(** The API accepted the message ([result.ok]). *)
Definition delivered (d : Delivery) : bool :=
  match d with
  | ApiReply true _ => true
  | _ => false
  end.

Definition posts (effects : list Effect) : list Z :=
  flat_map (fun e => match e with Post k => [k] | _ => [] end) effects.

Definition sleeps (effects : list Effect) : list Z :=
  flat_map (fun e => match e with Sleep ms => [ms] | _ => [] end) effects.

End Notifier.

(* ===================================================================== *)
(** ** Further bookkeeping of controller runs *)
(* ===================================================================== *)

Module ControllerMore.
Import JsString Js Controller.

Section Runtime.
Context {R : Type}.

(** How many promises were fulfilled, and how many rejected, so far. *)
Definition is_fulfilled (p : nat * completion R) : bool :=
  match snd p with Normal _ => true | Throw _ => false end.

Definition fulfilled (rt : Runtime R) : Z :=
  Z.of_nat (length (List.filter is_fulfilled (promises rt))).

Definition rejected (rt : Runtime R) : Z :=
  Z.of_nat (length (List.filter (fun p => negb (is_fulfilled p))
                      (promises rt))).

(** The high-water mark stays between 0 and the configured ceiling. *)
Definition peak_ok (rt : Runtime R) : Prop :=
  0 <= maxActive (stats (this rt))
    <= Z.max 0 (maxConcurrent (config (this rt))).

(** Call numbers are spread over the queue, the executing tasks and the
    settled promises without repetition. *)
Record once (rt : Runtime R) : Prop := {
  once_nodup : NoDup (queued rt ++ callers (executing rt) ++ promised rt);
  once_known :
    forall c, c ∈ queued rt ++ callers (executing rt) ++ promised rt ->
              (c < calls rt)%nat
}.

(** Nothing was ever started. *)
Record idle (rt : Runtime R) : Prop := {
  idle_invoked : invoked rt = [];
  idle_executing : executing rt = [];
  idle_promises : promises rt = []
}.

(** The counters that settling and cleaning up touch. *)
Definition stats_of (rt : Runtime R) : Z * Z * Z :=
  (successes (stats (this rt)), errors (stats (this rt)),
   totalCompleted (stats (this rt))).

(** The outcome counters agree with the promises settled, and every
    settled task is either cleaned up or has its timer pending. *)
Record counted (rt : Runtime R) : Prop := {
  counted_successes : successes (stats (this rt)) = fulfilled rt;
  counted_errors : errors (stats (this rt)) = rejected rt;
  counted_settled :
    successes (stats (this rt)) + errors (stats (this rt))
    = totalCompleted (stats (this rt)) + Z.of_nat (length (timers rt))
}.

(** Two queue items wait in this order. *)
Definition waits_before (a b : QueueItem) (rt : Runtime R) : Prop :=
  exists l1 l2 l3, queue (this rt) = l1 ++ a :: l2 ++ b :: l3.

(** Where two items that waited in the order [a], [b] can be later on:
    still waiting in that order; [a] waiting and [b] given up; [a]
    started; or [a] given up. *)
Definition fifo_state (a b : QueueItem) (rt : Runtime R) : Prop :=
  waits_before a b rt \/
  (a ∈ queue (this rt) /\ dropped (caller (item_task b)) rt) \/
  caller (item_task a) ∈ callers (invoked rt) \/
  dropped (caller (item_task a)) rt.

End Runtime.

End ControllerMore.

(* ===================================================================== *)
(** ** Comparing the two probes *)
(* ===================================================================== *)

Module ProbeMore.
Import JsString Js Probe.

Section Checks.
Context {score : Type}.

(** The same result under the other priority tag. *)
Definition with_priority (p : Priority) (r : HealthCheckResult score)
  : HealthCheckResult score :=
  {| healthy := healthy r;
     responseTime := responseTime r;
     responseTimeScore := responseTimeScore r;
     status := status r;
     version := version r;
     priority := p;
     error := error r;
     timestamp := timestamp r |}.

Definition relabel (p : Priority) (c : completion (HealthCheckResult score))
  : completion (HealthCheckResult score) :=
  match c with
  | Normal r => Normal (with_priority p r)
  | Throw e => Throw e
  end.

(** The exchange is an answer 200 whose body cannot be read. *)
Definition unreadable_200 (x : Exchange) : Prop :=
  exists response e,
    fetched x = Normal response /\ resp_status response = 200 /\
    resp_text response = Throw e.

End Checks.

End ProbeMore.

(* ===================================================================== *)
(** ** The notifier's record of an outcome *)
(* ===================================================================== *)

Module NotifierMore.
Import JsString Js Notifier.

(** [retryDelay * Math.pow(2, attempt - 1)] *)
Definition backoff (n : Notifier) (attempt : Z) : Z :=
  retryDelay n * 2 ^ (attempt - 1).

(** The success flags of the calls of [saveNotificationToDB], and whether
    [fallbackNotification] was called. *)
Definition saves (effects : list Effect) : list bool :=
  flat_map (fun e => match e with Save _ ok => [ok] | _ => [] end) effects.

Definition used_fallback (effects : list Effect) : bool :=
  existsb (fun e => match e with Fallback => true | _ => false end) effects.

(** The properties of [notificationData] that [saveNotificationToDB]
    reads; each may be missing. *)
Record NotificationData := {
  type : option jsstring;
  client_ip : option jsstring;
  backend_url : option jsstring;
  status_code : option Z;
  response_time : option Z
}.

(** The object handed to [db.saveTelegramNotification]. *)
Record Row := {
  row_notification_type : jsstring;
  row_request_id : jsstring;
  row_client_ip : jsstring;
  row_backend_url : jsstring;
  row_status_code : Z;
  row_response_time : Z;
  row_success : bool;
  row_message : jsstring
}.

(** [x || d] for a string and for a number. *)
Definition or_string (x : option jsstring) (d : jsstring) : jsstring :=
  match x with
  | Some (c :: s) => c :: s
  | _ => d
  end.

Definition or_number (x : option Z) (d : Z) : Z :=
  match x with
  | Some 0 => d
  | Some n => n
  | None => d
  end.

(** [message.substring(0, 500)] *)
Definition substring_from_0 (len : nat) (s : jsstring) : jsstring :=
  firstn len s.

(** [saveNotificationToDB]: [db] is the binding [env.DB], if any, as
    what [saveTelegramNotification] (of [database.js]) does with a row.
    The result is the completion of the method and the rows handed
    over. *)
Definition saveNotificationToDB (db : option (Row -> completion unit))
    (data : NotificationData) (requestId message : jsstring)
    (success : bool) : completion unit * list Row :=
  match db with
  | Some saveTelegramNotification =>
      let row :=
        {| row_notification_type := or_string (type data) (lit "unknown");
           row_request_id := requestId;
           row_client_ip := or_string (client_ip data) (lit "unknown");
           row_backend_url := or_string (backend_url data) [];
           row_status_code := or_number (status_code data) 0;
           row_response_time := or_number (response_time data) 0;
           row_success := success;
           row_message := substring_from_0 500 message |} in
      (try_catch
         (await (saveTelegramNotification row) (fun _ => Normal tt))
         (fun error => Normal tt),
       [row])
  | None => (try_catch (Normal tt) (fun error => Normal tt), [])
  end.

End NotifierMore.

(* ===================================================================== *)
(** ** initDatabase *)
(* ===================================================================== *)

(** The database handle [db] is a collaborator: a state of some type [D]
    and what it does with one prepared statement.  The statements the
    script issues are told apart by their text and bound value; the time
    strings bound by the INSERT and the clock-dependent fields of the
    result ([duration_ms], [beijing_time]) are left out. *)
Module InitDatabase.
Import JsString Js.

Inductive Statement :=
| SelectTable (table : string)
    (* SELECT name FROM sqlite_master WHERE type='table' AND name=? *)
| CreateTable (table : string)          (* CREATE TABLE IF NOT EXISTS ... *)
| CreateIndex (index : string)          (* CREATE INDEX IF NOT EXISTS ... *)
| SelectBackend (backend_url : string)
    (* SELECT id FROM backend_status WHERE backend_url = ? *)
| InsertBackend (backend_url : string). (* INSERT INTO backend_status ... *)

Definition tables : list string :=
  [ "health_check_results"; "backend_status"; "request_results";
    "telegram_notifications"; "error_logs" ]%string.

Definition indexes : list string :=
  [ "idx_health_check_timestamp"; "idx_backend_status_url";
    "idx_backend_status_healthy"; "idx_request_results_time";
    "idx_request_results_backend"; "idx_telegram_notifications_time";
    "idx_backend_status_beijing"; "idx_beijing_time";
    "idx_request_beijing_time" ]%string.

Definition defaultBackends : list string :=
  [ "https://url.v1.mk"; "https://api.sub.zaoy.cn";
    "https://subapi.sosoorg.com"; "https://subapi.cmliussss.net" ]%string.

Record InitResult := {
  success : bool;
  tables_checked : option Z;
  tables_created : option Z;
  default_backends_inserted : option Z;
  error : option jsstring
}.

Section Db.
(** [exec s d]: the completion of [.first()] or [.run()] on statement
    [s], with [true] for a row found, and the database afterwards. *)
Context {D : Type} (exec : Statement -> D -> completion bool * D).

(** The database and the statements issued so far, oldest first. *)
Record Session := { db : D; log : list Statement }.

Definition issue (s : Statement) (st : Session) : completion bool * Session :=
  let '(c, d) := exec s (db st) in
  (c, {| db := d; log := log st ++ [s] |}).

(** [for (const table of tables)], each round in its own [try]. *)
Fixpoint check_tables (ts : list string) (createdTables : Z) (st : Session)
  : Z * Session :=
  match ts with
  | [] => (createdTables, st)
  | table :: rest =>
      let '(c, st') := issue (SelectTable table) st in
      match c with
      | Normal true => check_tables rest createdTables st'
      | Normal false => check_tables rest (createdTables + 1) st'
      | Throw _ => check_tables rest createdTables st'
      end
  end.

(** The five awaited CREATE TABLE statements: the first that throws
    ends the [try] block. *)
Fixpoint create_all (ts : list string) (st : Session)
  : completion unit * Session :=
  match ts with
  | [] => (Normal tt, st)
  | table :: rest =>
      let '(c, st') := issue (CreateTable table) st in
      match c with
      | Normal _ => create_all rest st'
      | Throw e => (Throw e, st')
      end
  end.

(** [for (const indexSql of indexes)], each round in its own [try]. *)
Fixpoint create_indexes (names : list string) (st : Session) : Session :=
  match names with
  | [] => st
  | index :: rest => create_indexes rest (snd (issue (CreateIndex index) st))
  end.

Definition createTablesDynamically (st : Session)
  : completion bool * Session :=
  let '(c, st') := create_all tables st in
  match c with
  | Normal _ => (Normal true, create_indexes indexes st')
  | Throw e => (Throw e, st')
  end.

(** [for (const backendUrl of defaultBackends)], each round in its own
    [try]. *)
Fixpoint insert_backends (urls : list string) (insertedBackends : Z)
    (st : Session) : Z * Session :=
  match urls with
  | [] => (insertedBackends, st)
  | backendUrl :: rest =>
      let '(c, st') := issue (SelectBackend backendUrl) st in
      match c with
      | Normal false =>
          let '(c', st'') := issue (InsertBackend backendUrl) st' in
          match c' with
          | Normal _ => insert_backends rest (insertedBackends + 1) st''
          | Throw _ => insert_backends rest insertedBackends st''
          end
      | _ => insert_backends rest insertedBackends st'
      end
  end.

Definition initDatabase (d : D) : InitResult * Session :=
  let '(createdTables, st1) :=
    check_tables tables 0 {| db := d; log := [] |} in
  let '(c, st2) :=
    if 0 <? createdTables then createTablesDynamically st1
    else (Normal true, st1) in
  match c with
  | Throw e =>
      ({| success := false; tables_checked := None; tables_created := None;
          default_backends_inserted := None; error := Some (message e) |},
       st2)
  | Normal _ =>
      let '(insertedBackends, st3) := insert_backends defaultBackends 0 st2 in
      ({| success := true;
          tables_checked := Some (Z.of_nat (length tables));
          tables_created := Some createdTables;
          default_backends_inserted := Some insertedBackends;
          error := None |},
       st3)
  end.

End Db.



Definition touches_backends (s : Statement) : bool :=
  match s with SelectBackend _ | InsertBackend _ => true | _ => false end.


End InitDatabase.

(* ===================================================================== *)
(** ** The worker's entry points *)
(* ===================================================================== *)

(** [fetch], [handleSubconverterRequestMain], [handleGlobalError] and
    [scheduled].  The modules they import ([core.js], [database.js],
    [api.js], [status-page.js], [utils.js]) are collaborators: each call
    into them is represented by its completion.  Responses built here
    are kept as their status code; alerts are the payloads handed to
    [sendNotification] through [ctx.waitUntil]. *)
Module Worker.
Import JsString Js.

Inductive Alert :=
| AlertError (error_type : string)       (* type: 'error' *)
| AlertHealthChange.                     (* type: 'health_change' *)

(** What the handler asks of the run time besides alerts. *)
Inductive Action :=
| Notify (a : Alert)
| Proxy (streaming : bool) (backendUrl : string)
        (backendSelectionTime backendWeight : Z)
| Cleanup (days : Z).                    (* safeDB.cleanupOldData(7) *)

Record Selection := { backend : option string; selectionTime : Z }.

Record HealthSummary := { totalBackends : Z; healthyBackends : Z }.

Section Handlers.
Context {Resp : Type}.

Inductive Reply :=
| Passed (r : Resp)        (* a collaborator's response, returned as is *)
| Plain (status : Z).      (* new Response(text, { status }) *)

Record Collaborators := {
  validateConfig : completion unit;
  createEnhancedStatusPage : completion Resp;
  handleApiRequest : completion Resp;
  (* JSON.parse(env.BACKEND_URLS || '[]').length, if it is a number *)
  backends_length : completion (option Z);
  DB : bool;
  smartFindAvailableBackend : completion Selection;
  (* (await safeDB.getBackendStatus(url))?.weight *)
  getBackendStatus_weight : string -> completion (option Z);
  streamProxyRequest : string -> Z -> Z -> completion Resp;
  handleSubconverterRequest : string -> Z -> Z -> completion Resp;
  ENABLE_STREAMING_PROXY : option string;
  performFullHealthCheck : completion HealthSummary;
  getUTCDay : Z
}.

(** The same collaborators under another value of the environment
    variable [ENABLE_STREAMING_PROXY]. *)
Definition with_streaming_flag (flag : option string) (k : Collaborators)
  : Collaborators :=
  {| validateConfig := validateConfig k;
     createEnhancedStatusPage := createEnhancedStatusPage k;
     handleApiRequest := handleApiRequest k;
     backends_length := backends_length k;
     DB := DB k;
     smartFindAvailableBackend := smartFindAvailableBackend k;
     getBackendStatus_weight := getBackendStatus_weight k;
     streamProxyRequest := streamProxyRequest k;
     handleSubconverterRequest := handleSubconverterRequest k;
     ENABLE_STREAMING_PROXY := flag;
     performFullHealthCheck := performFullHealthCheck k;
     getUTCDay := getUTCDay k |}.

(** [x || 50] for a number. *)
Definition or_50 (x : option Z) : Z :=
  match x with
  | Some 0 => 50
  | Some w => w
  | None => 50
  end.

(** [!backendUrl] is false for a non-empty string only. *)
Definition usable (b : option string) : option string :=
  match b with
  | Some u => if String.eqb u "" then None else Some u
  | None => None
  end.

Definition passed (c : completion Resp) : completion Reply :=
  match c with
  | Normal r => Normal (Passed r)
  | Throw e => Throw e
  end.

Definition handleGlobalError (e : error) : Reply * list Action :=
  (Plain 500, [Notify (AlertError "global_error")]).

Definition handleSubconverterRequestMain (k : Collaborators)
  : completion Reply * list Action :=
  match backends_length k with
  | Throw e => (Throw e, [])
  | Normal (Some 0) => (Normal (Plain 503), [])
  | Normal _ =>
      match smartFindAvailableBackend k with
      | Throw e => (Throw e, [])
      | Normal selected =>
          match usable (backend selected) with
          | None =>
              (Normal (Plain 503),
               [Notify (AlertError "no_available_backend")])
          | Some backendUrl =>
              let backendWeight :=
                if DB k
                then match getBackendStatus_weight k backendUrl with
                     | Normal w => or_50 w
                     | Throw _ => 50
                     end
                else 50 in
              let enableStreaming :=
                match ENABLE_STREAMING_PROXY k with
                | Some flag => String.eqb flag "true"
                | None => false
                end || true in
              if enableStreaming
              then (passed (streamProxyRequest k backendUrl
                              (selectionTime selected) backendWeight),
                    [Proxy true backendUrl (selectionTime selected)
                       backendWeight])
              else (passed (handleSubconverterRequest k backendUrl
                              (selectionTime selected) backendWeight),
                    [Proxy false backendUrl (selectionTime selected)
                       backendWeight])
          end
      end
  end.

(** [url.pathname.startsWith('/api/')] *)
Definition is_api (pathname : string) : bool :=
  String.prefix "/api/" pathname.

Definition fetch (pathname : string) (k : Collaborators)
  : Reply * list Action :=
  match validateConfig k with
  | Throw e => handleGlobalError e
  | Normal _ =>
      if String.eqb pathname "/" || String.eqb pathname "/status" then
        match createEnhancedStatusPage k with
        | Normal r => (Passed r, [])
        | Throw _ => (Plain 500, [])
        end
      else if is_api pathname then
        match handleApiRequest k with
        | Normal r => (Passed r, [])
        | Throw _ => (Plain 500, [])
        end
      else
        match handleSubconverterRequestMain k with
        | (Normal r, actions) => (r, actions)
        | (Throw e, actions) =>
            (fst (handleGlobalError e), actions ++ snd (handleGlobalError e))
        end
  end.

Definition scheduled (k : Collaborators) : list Action :=
  match performFullHealthCheck k with
  | Normal checkResults =>
      (if (getUTCDay k =? 0) && DB k then [Cleanup 7] else []) ++
      (if DB k && (healthyBackends checkResults =? 0)
       then [Notify AlertHealthChange] else [])
  | Throw e => [Notify (AlertError "cron_health_check_failed")]
  end.

End Handlers.

Definition alerts (actions : list Action) : list Alert :=
  flat_map (fun a => match a with Notify x => [x] | _ => [] end) actions.

Definition proxied_weights (actions : list Action) : list Z :=
  flat_map (fun a => match a with Proxy _ _ _ w => [w] | _ => [] end) actions.

Definition buffered (actions : list Action) : bool :=
  existsb (fun a => match a with Proxy false _ _ _ => true | _ => false end)
    actions.

End Worker.

(* ===================================================================== *)
(** ** Concrete inputs *)
(* ===================================================================== *)

(** Inputs at which the definitions above are evaluated further down. *)
Module Samples.
Import JsString Js.

(** 59 units, no version pattern, no piece with a [v] or a dotted
    number. *)
Definition prose : jsstring :=
  lit "hello world hello world hello world hello world hello world".

(** A backend that answers 200 with a page that does not name the
    service. *)
Definition foreign_page : Probe.Exchange :=
  {| Probe.fetched :=
       Normal {| Probe.resp_status := 200;
                 Probe.resp_text := Normal (lit "<html>nginx</html>") |};
     Probe.startTime := 1000;
     Probe.fetchedAt := 1042;
     Probe.returnedAt := 1043 |}.

(** A backend that answers 200 and then breaks the body stream. *)
Definition broken_body : Probe.Exchange :=
  {| Probe.fetched :=
       Normal {| Probe.resp_status := 200;
                 Probe.resp_text :=
                   Throw {| name := lit "TypeError";
                            message := lit "body stream failed" |} |};
     Probe.startTime := 1000;
     Probe.fetchedAt := 1042;
     Probe.returnedAt := 1043 |}.

(** A request aborted by the time-out guard. *)
Definition timed_out : Probe.Exchange :=
  {| Probe.fetched :=
       Throw {| name := lit "AbortError";
                message := lit "The operation was aborted" |};
     Probe.startTime := 1000;
     Probe.fetchedAt := 1800;
     Probe.returnedAt := 1800 |}.

(** A scorer to run the probes with. *)
Definition linear_score (rt : Z) : Z := Z.max 0 (100 - rt / 10).

(** The process-wide instance,
    [new HealthCheckConcurrencyController({ maxConcurrent: 5 })], built
    at clock [now]. *)
Definition healthCheckController {R} (now : Z) : Controller.Runtime R :=
  Controller.boot (Some {| Controller.maxConcurrent := 5 |}) now.

(** Five checks of five backends start one millisecond before the stats
    window of five minutes ends, and are still waiting for their answers
    two milliseconds later. *)
Definition five_in_flight : list (Controller.Event unit) :=
  [ Controller.Elapse 299999;
    Controller.Call "https://b1.example" "req-1";
    Controller.Call "https://b2.example" "req-2";
    Controller.Call "https://b3.example" "req-3";
    Controller.Call "https://b4.example" "req-4";
    Controller.Call "https://b5.example" "req-5";
    Controller.Elapse 2 ]%string.

(** Then a sixth check is asked for. *)
Definition sixth_call : Controller.Event unit :=
  Controller.Call "https://b6.example" "req-6".

(** Then the first two checks get their answers, and their clean-up
    timers fire 100 ms later. *)
Definition late_completions : list (Controller.Event unit) :=
  [ Controller.Settle 0 (Normal tt);
    Controller.Settle 1 (Normal tt);
    Controller.Elapse 100;
    Controller.Timer 0;
    Controller.Timer 0 ].

(** A controller of capacity one: the first check runs, the second waits
    in the queue for more than 30 seconds. *)
Definition one_slot : option Controller.Config :=
  Some {| Controller.maxConcurrent := 1 |}.

Definition long_wait : list (Controller.Event unit) :=
  [ Controller.Call "https://b1.example" "req-1";
    Controller.Call "https://b2.example" "req-2";
    Controller.Elapse 30000;
    Controller.Settle 0 (Normal tt);
    Controller.Elapse 100 ]%string.

Definition waiting_item : Controller.QueueItem :=
  {| Controller.item_task :=
       {| Controller.taskKey := "https://b2.example-0";
          Controller.url := "https://b2.example";
          Controller.requestId := "req-2";
          Controller.caller := 1 |};
     Controller.item_url := "https://b2.example";
     Controller.item_requestId := "req-2";
     Controller.addedTime := 0 |}%string.

Definition afterwards : list (Controller.Event unit) :=
  [ Controller.Call "https://b3.example" "req-3";
    Controller.Elapse 50;
    Controller.Settle 2 (Normal tt);
    Controller.Elapse 100;
    Controller.Timer 0;
    Controller.Timer 0 ]%string.

(** Seven checks of seven backends within one stats window: five run,
    two wait; the first answer frees a slot 100 ms later. *)
Definition busy_minute : list (Controller.Event unit) :=
  [ Controller.Call "https://b1.example" "req-1";
    Controller.Call "https://b2.example" "req-2";
    Controller.Call "https://b3.example" "req-3";
    Controller.Call "https://b4.example" "req-4";
    Controller.Call "https://b5.example" "req-5";
    Controller.Call "https://b6.example" "req-6";
    Controller.Call "https://b7.example" "req-7";
    Controller.Elapse 40;
    Controller.Settle 0 (Normal tt);
    Controller.Elapse 100;
    Controller.Timer 0 ]%string.

(** Six checks of one backend asked for in the same millisecond. *)
Definition same_instant : list (Controller.Event unit) :=
  [ Controller.Call "https://b1.example" "req-1";
    Controller.Call "https://b1.example" "req-2";
    Controller.Call "https://b1.example" "req-3";
    Controller.Call "https://b1.example" "req-4";
    Controller.Call "https://b1.example" "req-5";
    Controller.Call "https://b1.example" "req-6" ]%string.

(** The shared controller right after [priorityCheck] of one backend:
    the check function of call 0 is executing. *)
Definition probe_running : Controller.Runtime (Probe.HealthCheckResult Z) :=
  Probe.priorityCheck "https://b1.example" "req-1" (healthCheckController 0).

(** Credentials present, every notification type switched on. *)
Definition alerting_env : Notifier.Env :=
  {| Notifier.TG_BOT_TOKEN := Some "123456:token"%string;
     Notifier.TG_CHAT_ID := Some "-1001"%string;
     Notifier.NOTIFY_ON_REQUEST := true;
     Notifier.NOTIFY_ON_HEALTH_CHANGE := true;
     Notifier.NOTIFY_ON_ERROR := true |}.

(** An API host that answers 502 to every request. *)
Definition unreachable_api (attempt : Z) : Notifier.Delivery :=
  Notifier.HttpReply 502 (lit "Bad Gateway").

(** An API host that answers 502 once and accepts the second request. *)
Definition recovering_api (attempt : Z) : Notifier.Delivery :=
  if attempt <? 2
  then Notifier.HttpReply 502 (lit "Bad Gateway")
  else Notifier.ApiReply true None.

(** Credentials present, error notifications switched off. *)
Definition muted_env : Notifier.Env :=
  {| Notifier.TG_BOT_TOKEN := Some "123456:token"%string;
     Notifier.TG_CHAT_ID := Some "-1001"%string;
     Notifier.NOTIFY_ON_REQUEST := true;
     Notifier.NOTIFY_ON_HEALTH_CHANGE := true;
     Notifier.NOTIFY_ON_ERROR := false |}.

(** A database whose every write fails, a payload with no property set,
    and a message of 600 code units. *)
Definition failing_store (row : NotifierMore.Row) : completion unit :=
  Throw {| name := lit "Error"; message := lit "D1_ERROR" |}.

Definition bare_data : NotifierMore.NotificationData :=
  {| NotifierMore.type := None;
     NotifierMore.client_ip := None;
     NotifierMore.backend_url := None;
     NotifierMore.status_code := None;
     NotifierMore.response_time := None |}.

Definition long_message : jsstring := repeat 120%N 600.

(** A database on which every statement fails. *)
Definition broken_database (s : InitDatabase.Statement) (d : unit)
  : completion bool * unit :=
  (Throw {| name := lit "Error"; message := lit "D1_ERROR" |}, d).


(** A deployment with a database in which the chosen backend is stored
    with weight 0, streaming switched off in the environment, and every
    backend down at the cron check. *)
Definition deployment : Worker.Collaborators (Resp := Z) :=
  {| Worker.validateConfig := Normal tt;
     Worker.createEnhancedStatusPage := Normal 200;
     Worker.handleApiRequest :=
       Throw {| name := lit "Error"; message := lit "api down" |};
     Worker.backends_length := Normal (Some 2);
     Worker.DB := true;
     Worker.smartFindAvailableBackend :=
       Normal {| Worker.backend := Some "https://b1.example"%string;
                 Worker.selectionTime := 12 |};
     Worker.getBackendStatus_weight := fun _ => Normal (Some 0);
     Worker.streamProxyRequest := fun _ _ _ => Normal 200;
     Worker.handleSubconverterRequest := fun _ _ _ => Normal 200;
     Worker.ENABLE_STREAMING_PROXY := Some "false"%string;
     Worker.performFullHealthCheck :=
       Normal {| Worker.totalBackends := 2; Worker.healthyBackends := 0 |};
     Worker.getUTCDay := 3 |}.

(** A controller that was configured with no slot at all. *)
Definition no_slot : Controller.Config := {| Controller.maxConcurrent := 0 |}.

Definition three_calls : list (Controller.Event unit) :=
  [ Controller.Call "https://b1.example" "req-1";
    Controller.Call "https://b2.example" "req-2";
    Controller.Elapse 100;
    Controller.Timer 0;
    Controller.Call "https://b3.example" "req-3" ]%string.

(** One slot: the first check runs, the second starts to wait 10 ms
    before the stats window ends. *)
Definition queued_late : list (Controller.Event unit) :=
  [ Controller.Elapse 299990;
    Controller.Call "https://b1.example" "req-1";
    Controller.Call "https://b2.example" "req-2";
    Controller.Elapse 11 ]%string.

Definition late_item : Controller.QueueItem :=
  {| Controller.item_task :=
       {| Controller.taskKey := "https://b2.example-299990";
          Controller.url := "https://b2.example";
          Controller.requestId := "req-2";
          Controller.caller := 1 |};
     Controller.item_url := "https://b2.example";
     Controller.item_requestId := "req-2";
     Controller.addedTime := 299990 |}%string.

Definition first_answer : list (Controller.Event unit) :=
  [ Controller.Settle 0 (Normal tt);
    Controller.Elapse 100;
    Controller.Timer 0;
    Controller.Timer 0 ].

(** One slot, three calls: one runs, two wait; then both waiting tasks
    get their turn. *)
Definition two_waiting : list (Controller.Event unit) :=
  [ Controller.Call "https://b1.example" "req-1";
    Controller.Call "https://b2.example" "req-2";
    Controller.Call "https://b3.example" "req-3" ]%string.

Definition third_item : Controller.QueueItem :=
  {| Controller.item_task :=
       {| Controller.taskKey := "https://b3.example-0";
          Controller.url := "https://b3.example";
          Controller.requestId := "req-3";
          Controller.caller := 2 |};
     Controller.item_url := "https://b3.example";
     Controller.item_requestId := "req-3";
     Controller.addedTime := 0 |}%string.

Definition both_served : list (Controller.Event unit) :=
  [ Controller.Settle 0 (Normal tt);
    Controller.Elapse 100;
    Controller.Timer 0;
    Controller.Settle 1 (Normal tt);
    Controller.Elapse 100;
    Controller.Timer 0 ].

End Samples.

(* ===================================================================== *)
(** ** Shapes of version text *)
(* ===================================================================== *)

Module VersionMore.
Import JsString Regex Version.

(** A non-empty run of decimal digits. *)
Definition digits (a : jsstring) : Prop :=
  a <> [] /\ forallb is_digit a = true.

(** [a.b.c] *)
Definition dotted (a b c : jsstring) : jsstring :=
  a ++ lit "." ++ b ++ lit "." ++ c.

(** The regular expression cannot match without consuming the unit [c]:
    a literal on its spine holds it.  (Used for patterns without the
    [i] flag.) *)
Fixpoint consumes (c : N) (r : regex) : bool :=
  match r with
  | Lit p => existsb (N.eqb c) (lit p)
  | Plus _ => false
  | Cat r1 r2 => consumes c r1 || consumes c r2
  | Opt _ => false
  end.

(** The regular expression starts with a literal whose first unit is
    [a]. *)
Fixpoint starts_with_unit (a : N) (r : regex) : bool :=
  match r with
  | Lit p => match lit p with a' :: _ => N.eqb a a' | [] => false end
  | Cat r1 _ => starts_with_unit a r1
  | _ => false
  end.

(** A digit or a full stop. *)
Definition digit_or_dot (c : N) : bool := is_digit c || N.eqb c 46.

End VersionMore.
(* ===================================================================== *)
(** ** Properties of version extraction *)
(* ===================================================================== *)

Module VersionFacts.
Import JsString Regex Version Samples.

Lemma digit_not_space c : is_digit c = true -> is_space c = false.
Proof.
  unfold is_digit, is_space.
  rewrite !andb_true_iff, !N.leb_le. intros [Hlo Hhi].
  rewrite !orb_false_iff, !andb_false_iff, !N.leb_gt, !N.eqb_neq. lia.
Qed.

Lemma lower_not_space c : is_lower c = true -> is_space c = false.
Proof.
  unfold is_lower, is_space.
  rewrite !andb_true_iff, !N.leb_le. intros [Hlo Hhi].
  rewrite !orb_false_iff, !andb_false_iff, !N.leb_gt, !N.eqb_neq. lia.
Qed.

Lemma word_not_space c : is_word c = true -> is_space c = false.
Proof.
  unfold is_word, is_upper, is_lower, is_digit, is_space.
  rewrite !orb_true_iff, !andb_true_iff, !N.leb_le, N.eqb_eq. intros H.
  rewrite !orb_false_iff, !andb_false_iff, !N.leb_gt, !N.eqb_neq. lia.
Qed.

Lemma match_lit_length icase p s rest :
  match_lit icase p s = Some rest -> (length rest <= length s)%nat.
Proof.
  revert s. induction p as [|a p IH]; intros s H; simpl in H.
  - injection H as <-. lia.
  - destruct s as [|c s]; [discriminate|].
    destruct (char_eqb icase a c); [|discriminate].
    apply IH in H. simpl. lia.
Qed.

Lemma match_plus_length k s rest :
  In rest (match_plus k s) -> (length rest < length s)%nat.
Proof.
  revert rest. induction s as [|c s IH]; intros rest H; simpl in H; [easy|].
  destruct (in_cls k c); [|easy].
  apply in_app_or in H as [H|H].
  - apply IH in H. simpl. lia.
  - destruct H as [<-|[]]. simpl. lia.
Qed.

Lemma match_plus_head k s rest :
  In rest (match_plus k s) -> exists c s', s = c :: s' /\ in_cls k c = true.
Proof.
  destruct s as [|c s]; simpl; [easy|].
  destruct (in_cls k c) eqn:E; [eauto|easy].
Qed.

(** No alternative of the matcher gives back more input than it got. *)
Lemma matches_length icase r : forall s rest,
  In rest (matches icase r s) -> (length rest <= length s)%nat.
Proof.
  induction r as [p|k|r1 IH1 r2 IH2|r1 IH1]; intros s rest H; simpl in H.
  - destruct (match_lit icase (lit p) s) as [rest'|] eqn:E; [|easy].
    destruct H as [<-|[]]. eapply match_lit_length; eauto.
  - apply match_plus_length in H. lia.
  - apply in_flat_map in H as (mid & Hmid & Hrest).
    apply IH1 in Hmid. apply IH2 in Hrest. lia.
  - apply in_app_or in H as [H|[<-|[]]]; [eauto|lia].
Qed.

Lemma matches_head icase r : head_solid icase r = true -> forall s rest,
  In rest (matches icase r s) ->
  exists c s', s = c :: s' /\ is_space c = false /\
               (length rest <= length s')%nat.
Proof.
  induction r as [p|k|r1 IH1 r2 IH2|r1 IH1]; simpl; intros Hs s rest H.
  - destruct (lit p) as [|a q] eqn:Ep; [discriminate|].
    apply andb_true_iff in Hs as [Ha Hup].
    destruct s as [|c s]; simpl in H; [easy|].
    destruct (char_eqb icase a c) eqn:Ec; [|easy].
    destruct (match_lit icase q s) as [rest'|] eqn:E; [|easy].
    destruct H as [<-|[]]. exists c, s. split; [easy|]. split.
    + unfold char_eqb, unit_eqb in Ec. destruct icase.
      * apply N.eqb_eq in Ec. unfold upcase at 2 in Ec.
        destruct (is_lower c) eqn:El; [now apply lower_not_space|].
        rewrite <- Ec. now apply negb_true_iff.
      * apply N.eqb_eq in Ec. subst c. now apply negb_true_iff.
    + eapply match_lit_length; eauto.
  - pose proof (match_plus_length _ _ _ H) as Hlen.
    apply match_plus_head in H as (c & s' & -> & Hc).
    exists c, s'. split; [easy|]. split; [|simpl in Hlen; lia].
    destruct k; simpl in Hc; [now apply digit_not_space
                             |now apply word_not_space|discriminate].
  - apply in_flat_map in H as (mid & Hmid & Hrest).
    destruct (IH1 Hs _ _ Hmid) as (c & s' & -> & Hc & Hlen).
    exists c, s'. split; [easy|]. split; [easy|].
    apply matches_length in Hrest. lia.
  - discriminate.
Qed.

Lemma trimStart_snoc_solid l c :
  is_space c = false -> trimStart (l ++ [c]) <> [].
Proof.
  intros Hc. induction l as [|a l IH]; simpl.
  - now rewrite Hc.
  - destruct (is_space a); [exact IH|easy].
Qed.

Lemma trim_solid_head c s : is_space c = false -> trim (c :: s) <> [].
Proof.
  intros Hc. unfold trim, trimEnd. simpl trimStart at 2. rewrite Hc.
  simpl rev at 2. intros H.
  apply (f_equal (@rev N)) in H. rewrite rev_involutive in H. simpl in H.
  now apply (trimStart_snoc_solid (rev s) c).
Qed.

Lemma match_here_solid p s m :
  head_solid (icase p) (re p) = true ->
  match_here p s = Some m -> trim m <> [].
Proof.
  intros Hs H. unfold match_here in H.
  destruct (matches (icase p) (re p) s) as [|rest l] eqn:E; [discriminate|].
  injection H as <-.
  destruct (matches_head _ _ Hs s rest) as (c & s' & -> & Hc & Hlen).
  { rewrite E. now left. }
  replace (length (c :: s') - length rest)%nat
    with (S (length s' - length rest)) by (simpl; lia).
  simpl firstn. now apply trim_solid_head.
Qed.

Lemma search_solid p : head_solid (icase p) (re p) = true ->
  forall s m, search p s = Some m -> trim m <> [].
Proof.
  intros Hs. induction s as [|c s IH]; intros m H; simpl in H.
  - destruct (match_here p []) eqn:E; [|discriminate].
    injection H as <-. eapply match_here_solid; eauto.
  - destruct (match_here p (c :: s)) eqn:E.
    + injection H as <-. eapply match_here_solid; eauto.
    + eauto.
Qed.

Lemma unify_format_nonempty v : v <> [] -> unify_format v <> [].
Proof.
  intros Hv. unfold unify_format.
  destruct (includes _ _); [easy|].
  destruct (startsWith _ _); [easy|].
  destruct (starts_with_digit _); easy.
Qed.

Lemma first_pattern_nonempty ps text v :
  forallb (fun p => head_solid (icase p) (re p)) ps = true ->
  first_pattern ps text = Some v -> v <> [].
Proof.
  induction ps as [|p ps IH]; simpl; intros Hs H; [discriminate|].
  apply andb_true_iff in Hs as [Hp Hps].
  destruct (search p text) as [m|] eqn:E.
  - injection H as <-. apply unify_format_nonempty.
    eapply search_solid; eauto.
  - eauto.
Qed.

Lemma scan_words_nonempty words : scan_words words <> [].
Proof.
  induction words as [|w ws IH]; simpl; [easy|].
  destruct (_ && _); easy.
Qed.

Lemma extract_string_nonempty raw : extract_string raw <> [].
Proof.
  unfold extract_string.
  destruct (first_pattern versionPatterns (trim raw)) as [v|] eqn:E.
  - eapply first_pattern_nonempty; [|exact E]. reflexivity.
  - destruct (_ <=? _)%nat; [|apply scan_words_nonempty].
    destruct (trim raw); easy.
Qed.

(** C7: the five worked examples of version extraction. *)
Theorem extractVersionFromText_examples :
  extractVersionFromText (JString (lit "subconverter v0.9.9-7544246 backend"))
    = lit "subconverter v0.9.9-7544246 backend" /\
  extractVersionFromText (JString (lit "v0.9.9-7544246"))
    = lit "subconverter v0.9.9-7544246" /\
  extractVersionFromText (JString (lit "0.9.9")) = lit "subconverter v0.9.9" /\
  extractVersionFromText (JString (lit "")) = sentinel /\
  extractVersionFromText (JString (lit "hello world")) = lit "hello world" /\
  first_pattern versionPatterns (lit "hello world") = None /\
  (length (lit "hello world") <= 50)%nat.
Proof. vm_compute. repeat split; lia. Qed.

(** C10: [extractVersionFromText] returns a non-empty string on every
    JavaScript value; the sentinel on every value that is not a string,
    on every string that is empty once trimmed, and on every string whose
    trimmed text matches no pattern, is longer than 50 units and has no
    piece that looks like a version within 30 units. *)
Theorem extractVersionFromText_total_nonempty :
  (forall v, extractVersionFromText v <> []) /\
  (forall v, (forall s, v <> JString s) ->
             extractVersionFromText v = sentinel) /\
  (forall s, trim s = [] -> extractVersionFromText (JString s) = sentinel) /\
  (forall s,
     first_pattern versionPatterns (trim s) = None ->
     (50 < length (trim s))%nat ->
     (forall word, In word (split (trim s)) ->
                   looks_like_version word = true ->
                   (30 < length word)%nat) ->
     extractVersionFromText (JString s) = sentinel).
Proof.
  split; [|split; [|split]].
  - intros [ | | b | n | s | ]; simpl; try discriminate.
    destruct s as [|c s]; [discriminate|]. apply extract_string_nonempty.
  - intros v Hv. destruct v; try reflexivity. now destruct (Hv s).
  - intros s Hs. destruct s as [|c s]; [reflexivity|].
    simpl. unfold extract_string. rewrite Hs. reflexivity.
  - intros s Hnone Hlong Hwords.
    destruct s as [|c s]; [reflexivity|].
    simpl. unfold extract_string. rewrite Hnone.
    destruct (Nat.leb_spec (length (trim (c :: s))) 50) as [Hle|_]; [lia|].
    induction (split (trim (c :: s))) as [|w ws IH]; [reflexivity|].
    simpl. destruct (looks_like_version w) eqn:Ew.
    + assert (30 < length w)%nat as Hw by (apply Hwords; [now left|easy]).
      destruct (Nat.leb_spec (length w) 30) as [Hle|_]; [lia|].
      simpl. apply IH. intros word Hin. apply Hwords. now right.
    + simpl. apply IH. intros word Hin. apply Hwords. now right.
Qed.

Lemma extractVersionFromText_total_nonempty_witness :
  trim (lit "   ") = [] /\
  extractVersionFromText (JString (lit "   ")) = sentinel /\
  first_pattern versionPatterns (trim prose) = None /\
  (50 < length (trim prose))%nat /\
  extractVersionFromText (JString prose) = sentinel.
Proof.
  destruct extractVersionFromText_total_nonempty as (_ & _ & Hblank & Hlong).
  split; [reflexivity|]. split; [apply Hblank; reflexivity|].
  split; [reflexivity|]. split; [vm_compute; lia|].
  apply Hlong; [reflexivity|vm_compute; lia|].
  intros word Hin Hv. vm_compute in Hin.
  repeat (destruct Hin as [<-|Hin]; [vm_compute in Hv; discriminate|]).
  destruct Hin.
Defined.

End VersionFacts.

(* ===================================================================== *)
(** ** Properties of the probes *)
(* ===================================================================== *)

Module ProbeFacts.
Import JsString Js Version Probe Samples.

Section Checks.
Context {score : Type} (score0 : score)
        (calculateResponseTimeScore : Z -> score).

Abbreviation priorityCheckFn := (priorityCheckFn score0 calculateResponseTimeScore).
Abbreviation fullCheckFn := (fullCheckFn score0 calculateResponseTimeScore).

(** Whatever the body says, a 200 answer whose body is read is healthy
    for the full check: the identity test is or-ed with the status test
    of the enclosing branch. *)
Lemma fullCheckFn_200_read x response text :
  fetched x = Normal response ->
  resp_status response = 200 ->
  resp_text response = Normal text ->
  exists r, fullCheckFn x = Normal r /\ healthy r = true.
Proof.
  intros Hf Hs Ht. unfold Probe.fullCheckFn. rewrite Hf. simpl.
  rewrite Hs, Ht. simpl. eexists. split; [reflexivity|].
  simpl. apply orb_true_r.
Qed.

(** Neither check function ever ends by throwing. *)
Lemma checkFn_never_throws x :
  (exists r, priorityCheckFn x = Normal r) /\
  (exists r, fullCheckFn x = Normal r).
Proof.
  unfold Probe.priorityCheckFn, Probe.fullCheckFn.
  destruct (fetched x) as [response|e]; simpl; [|eauto].
  destruct (resp_status response =? 200); [|eauto].
  destruct (resp_text response); simpl; eauto.
Qed.

(** C4: on a 200 answer whose body cannot be read the fast check reports
    healthy, with the generic version string and the score of the
    response time, and the full check reports unhealthy. *)
Theorem unreadable_body_is_classified_oppositely x response e :
  fetched x = Normal response ->
  resp_status response = 200 ->
  resp_text response = Throw e ->
  priorityCheckFn x =
    Normal {| healthy := true;
              responseTime := Some (fetchedAt x - startTime x);
              responseTimeScore :=
                calculateResponseTimeScore (fetchedAt x - startTime x);
              status := 200;
              version := lit "subconverter";
              priority := high;
              error := None;
              timestamp := returnedAt x |} /\
  fullCheckFn x =
    Normal {| healthy := false;
              responseTime := Some (fetchedAt x - startTime x);
              responseTimeScore :=
                calculateResponseTimeScore (fetchedAt x - startTime x);
              status := 200;
              version := unknown_version;
              priority := normal;
              error := None;
              timestamp := returnedAt x |}.
Proof.
  intros Hf Hs Ht. unfold Probe.priorityCheckFn, Probe.fullCheckFn.
  rewrite Hf. simpl. rewrite Hs, Ht. simpl. split; reflexivity.
Qed.

(** C9: when [fetch] rejects (transport failure or time-out) both check
    functions end normally, with an unhealthy result of score 0, status
    0, no response time and the name of the error; and the controller
    task that ran the check function hands exactly that result to the
    caller's promise. *)
Theorem transport_error_becomes_result x e :
  fetched x = Throw e ->
  let fast := {| healthy := false; responseTime := None;
                 responseTimeScore := score0; status := 0;
                 version := unknown_version; priority := high;
                 error := Some (name e); timestamp := returnedAt x |} in
  let full := {| healthy := false; responseTime := None;
                 responseTimeScore := score0; status := 0;
                 version := unknown_version; priority := normal;
                 error := Some (name e); timestamp := returnedAt x |} in
  priorityCheckFn x = Normal fast /\
  fullCheckFn x = Normal full /\
  forall (rt : Controller.Runtime (HealthCheckResult score)) who t,
    List.find (Controller.is_caller who) (Controller.executing rt) = Some t ->
    Controller.promises (Controller.settle who (priorityCheckFn x) rt)
      = Controller.promises rt ++ [(who, Normal fast)] /\
    Controller.promises (Controller.settle who (fullCheckFn x) rt)
      = Controller.promises rt ++ [(who, Normal full)].
Proof.
  intros Hf fast full.
  assert (priorityCheckFn x = Normal fast) as Hfast.
  { unfold Probe.priorityCheckFn. rewrite Hf. reflexivity. }
  assert (fullCheckFn x = Normal full) as Hfull.
  { unfold Probe.fullCheckFn. rewrite Hf. reflexivity. }
  split; [exact Hfast|]. split; [exact Hfull|].
  intros rt who t Hrun. rewrite Hfast, Hfull.
  unfold Controller.settle. rewrite Hrun. split; reflexivity.
Qed.

End Checks.

(** C3: the full check reports a 200 answer healthy although its body,
    read without error, does not contain the service name. *)
Theorem fullCheck_healthy_without_identity :
  passes_sniff (lit "<html>nginx</html>") = false /\
  fullCheckFn 0 linear_score foreign_page =
    Normal {| healthy := true;
              responseTime := Some 42;
              responseTimeScore := 96;
              status := 200;
              version := lit "<html>nginx</html>";
              priority := normal;
              error := None;
              timestamp := 1043 |}.
Proof. vm_compute. split; reflexivity. Qed.

Lemma unreadable_body_is_classified_oppositely_witness :
  healthy <$> match priorityCheckFn 0 linear_score broken_body with
              | Normal r => Some r | Throw _ => None end = Some true /\
  healthy <$> match fullCheckFn 0 linear_score broken_body with
              | Normal r => Some r | Throw _ => None end = Some false.
Proof.
  destruct (unreadable_body_is_classified_oppositely 0 linear_score
              broken_body _ _ eq_refl eq_refl eq_refl) as [-> ->].
  split; reflexivity.
Defined.

Lemma transport_error_becomes_result_witness :
  fetched timed_out = Throw {| name := lit "AbortError";
                               message := lit "The operation was aborted" |} /\
  priorityCheckFn 0 linear_score timed_out
    = Normal {| healthy := false; responseTime := None;
                responseTimeScore := 0; status := 0;
                version := unknown_version; priority := high;
                error := Some (lit "AbortError"); timestamp := 1800 |} /\
  Controller.promises
    (Controller.settle 0 (fullCheckFn 0 linear_score timed_out) probe_running)
    = [(0%nat,
        Normal {| healthy := false; responseTime := None;
                  responseTimeScore := 0; status := 0;
                  version := unknown_version; priority := normal;
                  error := Some (lit "AbortError"); timestamp := 1800 |})].
Proof.
  destruct (transport_error_becomes_result 0 linear_score timed_out _ eq_refl)
    as (Hfast & _ & Hsettle).
  split; [reflexivity|]. split; [exact Hfast|].
  destruct (Hsettle probe_running 0%nat
              {| Controller.taskKey := "https://b1.example-0";
                 Controller.url := "https://b1.example";
                 Controller.requestId := "req-1";
                 Controller.caller := 0 |}) as [_ Hfull].
  { vm_compute. reflexivity. }
  rewrite Hfull. vm_compute. reflexivity.
Defined.

End ProbeFacts.

(* ===================================================================== *)
(** ** Properties of the controller *)
(* ===================================================================== *)

Module ControllerFacts.
Import JsString Js Controller Samples.

Section Runtime.
Context {R : Type}.
Implicit Types (rt : Runtime R) (item : QueueItem) (t : Task).

Lemma keeps_not_stale now item : keeps now item -> ~ stale now item.
Proof. unfold keeps, stale. lia. Qed.

(** The loop of the drain starts a prefix of the queue, in order, changes
    nothing else of the run time, and stops on an empty queue or a full
    active set only. *)
Lemma drain_prefix items : forall rt,
  queue (this rt) = items ->
  exists started,
    items = started ++ queue (this (drain items rt)) /\
    invoked (drain items rt) = invoked rt ++ (item_task <$> started) /\
    executing (drain items rt) = executing rt ++ (item_task <$> started) /\
    promises (drain items rt) = promises rt /\
    timers (drain items rt) = timers rt /\
    calls (drain items rt) = calls rt /\
    clock (drain items rt) = clock rt /\
    (queue (this (drain items rt)) = [] \/
     has_capacity (drain items rt) = false).
Proof.
  induction items as [|item rest IH]; intros rt Hq; simpl.
  - exists []. rewrite Hq, !app_nil_r. repeat split; auto.
  - destruct (has_capacity rt) eqn:Hcap.
    + destruct (IH (startTask (item_task item) (with_queue rest rt)) eq_refl)
        as (started & Hitems & Hinv & Hexec & Hprom & Htim & Hcalls & Hclock & Hstop).
      exists (item :: started). simpl.
      rewrite Hinv, Hexec, Hprom, Htim, Hcalls, Hclock. simpl.
      rewrite <- !app_assoc. simpl.
      repeat split; auto. f_equal. exact Hitems.
    + exists []. rewrite Hq, !app_nil_r. repeat split; auto.
Qed.

Lemma processQueue_prefix rt :
  exists started,
    filter (keeps (clock rt)) (queue (this rt))
      = started ++ queue (this (processQueue rt)) /\
    invoked (processQueue rt) = invoked rt ++ (item_task <$> started) /\
    executing (processQueue rt) = executing rt ++ (item_task <$> started) /\
    promises (processQueue rt) = promises rt /\
    timers (processQueue rt) = timers rt /\
    calls (processQueue rt) = calls rt /\
    clock (processQueue rt) = clock rt /\
    (queue (this (processQueue rt)) = [] \/
     has_capacity (processQueue rt) = false).
Proof.
  unfold processQueue.
  set (kept := filter (keeps (clock rt)) (queue (this rt))).
  destruct (drain_prefix kept (with_queue kept rt) eq_refl)
    as (started & H). exists started. exact H.
Qed.

Lemma fmap_sublist {A B} (f : A -> B) (l k : list A) :
  l `sublist_of` k -> f <$> l `sublist_of` f <$> k.
Proof.
  induction 1 as [|x l k _ IH|x l k _ IH]; simpl;
    [constructor|now apply sublist_skip|now apply sublist_cons].
Qed.

(** What the drain does to the call numbers. *)
Lemma processQueue_callers rt :
  exists started : list nat,
    started ++ queued (processQueue rt) `sublist_of` queued rt /\
    (forall c, c ∈ started ++ queued (processQueue rt) ->
       exists item, item ∈ queue (this rt) /\ keeps (clock rt) item /\
                    c = caller (item_task item)) /\
    callers (invoked (processQueue rt)) = callers (invoked rt) ++ started /\
    callers (executing (processQueue rt))
      = callers (executing rt) ++ started /\
    promised (processQueue rt) = promised rt /\
    calls (processQueue rt) = calls rt.
Proof.
  destruct (processQueue_prefix rt)
    as (started & Hq & Hinv & Hexec & Hprom & _ & Hcalls & _).
  exists ((fun item => caller (item_task item)) <$> started).
  unfold queued, callers, promised.
  rewrite <- fmap_app, <- Hq, Hinv, Hexec, Hprom, !fmap_app,
    <- !list_fmap_compose.
  split; [apply fmap_sublist, sublist_filter|].
  split; [|auto].
  intros c (item & -> & [Hk Hin]%list_elem_of_filter)%list_elem_of_fmap.
  eauto.
Qed.

Lemma consistent_boot cfg now : consistent (@boot R cfg now).
Proof.
  split; unfold queued, callers, promised; simpl;
    try (intros c Hc; now apply not_elem_of_nil in Hc).
  constructor.
Qed.

Lemma consistent_reset rt :
  consistent rt -> consistent (with_this (reset (clock rt) (this rt)) rt).
Proof.
  intros [Hq Hi Hn Hw He Hp].
  split; unfold queued; simpl; auto;
    try (intros c Hc; now apply not_elem_of_nil in Hc).
  constructor.
Qed.

Lemma consistent_lazy_reset rt : consistent rt -> consistent (lazy_reset rt).
Proof.
  intros H. unfold lazy_reset.
  destruct (_ <? _); [now apply consistent_reset|exact H].
Qed.

Lemma consistent_run_or_enqueue u req rt :
  consistent rt -> consistent (run_or_enqueue u req rt).
Proof.
  intros [Hq Hi Hn Hw He Hp]. unfold run_or_enqueue.
  destruct (has_capacity _).
  - split; unfold queued, callers, promised in *; simpl;
      rewrite ?fmap_app; simpl.
    + intros c Hc. apply Hq in Hc. lia.
    + intros c [Hc|Hc%list_elem_of_singleton]%elem_of_app;
        [apply Hi in Hc|]; lia.
    + exact Hn.
    + intros c Hc [Hc'|Hc'%list_elem_of_singleton]%elem_of_app.
      * now apply (Hw c).
      * apply Hq in Hc. lia.
    + intros c [Hc|Hc]%elem_of_app; apply elem_of_app; auto.
    + intros c Hc. apply elem_of_app; auto.
  - split; unfold queued, callers, promised in *; simpl;
      rewrite ?fmap_app; simpl.
    + intros c [Hc|Hc%list_elem_of_singleton]%elem_of_app;
        [apply Hq in Hc|]; lia.
    + intros c Hc. apply Hi in Hc. lia.
    + apply NoDup_app. split; [exact Hn|]. split; [|apply NoDup_singleton].
      intros c Hc ->%list_elem_of_singleton. apply Hq in Hc. lia.
    + intros c [Hc|Hc%list_elem_of_singleton]%elem_of_app Hc'.
      * now apply (Hw c).
      * apply Hi in Hc'. lia.
    + exact He.
    + exact Hp.
Qed.

Lemma consistent_settle who (o : completion R) rt :
  consistent rt -> consistent (settle who o rt).
Proof.
  intros [Hq Hi Hn Hw He Hp]. unfold settle.
  destruct (List.find _ _) as [t|] eqn:Hfind; [|now split].
  apply find_some in Hfind as [Hin Hwho]. apply Nat.eqb_eq in Hwho.
  apply list_elem_of_In in Hin.
  split; unfold queued, callers, promised in *; simpl; auto.
  - intros c (t' & -> & [_ Ht']%list_elem_of_filter)%list_elem_of_fmap.
    apply He. now apply list_elem_of_fmap_2.
  - rewrite fmap_app. simpl.
    intros c [Hc|Hc%list_elem_of_singleton]%elem_of_app; [auto|].
    subst c. apply He. rewrite <- Hwho. now apply list_elem_of_fmap_2.
Qed.

Lemma consistent_processQueue rt :
  consistent rt -> consistent (processQueue rt).
Proof.
  intros [Hq Hi Hn Hw He Hp].
  destruct (processQueue_callers rt)
    as (started & Hsub & _ & Hinv & Hexec & Hprom & Hcalls).
  pose proof (sublist_NoDup _ _ Hn Hsub) as Hnd.
  apply NoDup_app in Hnd as (_ & Hdisj & Hnq).
  assert (forall c, c ∈ started -> c ∈ queued rt) as Hs.
  { intros c Hc. eapply elem_of_sublist; [|exact Hsub].
    apply elem_of_app; auto. }
  assert (forall c, c ∈ queued (processQueue rt) -> c ∈ queued rt) as Hq'.
  { intros c Hc. eapply elem_of_sublist; [|exact Hsub].
    apply elem_of_app; auto. }
  split; rewrite ?Hinv, ?Hexec, ?Hprom, ?Hcalls.
  - auto.
  - intros c [Hc|Hc]%elem_of_app; auto.
  - exact Hnq.
  - intros c Hc [Hc'|Hc']%elem_of_app.
    + now apply (Hw c); auto.
    + now apply (Hdisj c).
  - intros c [Hc|Hc]%elem_of_app; apply elem_of_app; auto.
  - intros c Hc. apply elem_of_app; auto.
Qed.

Lemma consistent_fire k rt : consistent rt -> consistent (fire k rt).
Proof.
  intros H. unfold fire.
  destruct (timers rt !! k) as [[due key]|]; [|exact H].
  destruct (due <=? clock rt); [|exact H].
  apply consistent_processQueue. destruct H. now split.
Qed.

Lemma consistent_step e rt : consistent rt -> consistent (step e rt).
Proof.
  intros H. destruct e; simpl.
  - now apply consistent_run_or_enqueue, consistent_lazy_reset.
  - now apply consistent_settle.
  - now apply consistent_fire.
  - now apply consistent_reset.
  - destruct H. now split.
Qed.

Lemma consistent_run es : forall rt, consistent rt -> consistent (run es rt).
Proof.
  induction es as [|e es IH]; intros rt H; [exact H|].
  apply IH, consistent_step, H.
Qed.

Lemma NoDup_fmap_eq {A B} (f : A -> B) (l : list A) x y :
  NoDup (f <$> l) -> x ∈ l -> y ∈ l -> f x = f y -> x = y.
Proof.
  induction l as [|a l IH]; simpl; intros Hn Hx Hy Hf.
  - now apply not_elem_of_nil in Hx.
  - apply NoDup_cons in Hn as [Ha Hn].
    apply elem_of_cons in Hx as [->|Hx]; apply elem_of_cons in Hy as [->|Hy];
      auto.
    + destruct Ha. rewrite Hf. now apply list_elem_of_fmap_2.
    + destruct Ha. rewrite <- Hf. now apply list_elem_of_fmap_2.
Qed.

(** A stale item of a consistent run is dropped by the drain. *)
Lemma processQueue_drops rt item :
  consistent rt -> item ∈ queue (this rt) -> stale (clock rt) item ->
  dropped (caller (item_task item)) (processQueue rt).
Proof.
  intros [Hq Hi Hn Hw He Hp] Hin Hstale.
  set (c := caller (item_task item)).
  assert (c ∈ queued rt) as Hc.
  { unfold queued, c.
    now apply (list_elem_of_fmap_2 (fun i => caller (item_task i))). }
  destruct (processQueue_callers rt)
    as (started & Hsub & Hkept & Hinv & Hexec & Hprom & Hcalls).
  assert (c ∉ started ++ queued (processQueue rt)) as Hgone.
  { intros (item' & Hin' & Hk & Heq)%Hkept.
    assert (item = item') as <-.
    { eapply (NoDup_fmap_eq (fun i => caller (item_task i))); eauto. }
    now apply keeps_not_stale in Hk. }
  apply not_elem_of_app in Hgone as [Hns Hnq].
  split; rewrite ?Hinv, ?Hexec, ?Hprom, ?Hcalls; auto.
  - apply not_elem_of_app. split; auto.
  - apply not_elem_of_app. split; auto. intros Hx. now apply (Hw c); auto.
  - intros Hx. now apply (Hw c); auto.
Qed.

Lemma dropped_reset c rt :
  dropped c rt -> dropped c (with_this (reset (clock rt) (this rt)) rt).
Proof.
  intros [Hk Hq Hi He Hp]. split; auto. unfold queued. simpl.
  apply not_elem_of_nil.
Qed.

Lemma dropped_lazy_reset c rt : dropped c rt -> dropped c (lazy_reset rt).
Proof.
  intros H. unfold lazy_reset.
  destruct (_ <? _); [now apply dropped_reset|exact H].
Qed.

Lemma dropped_run_or_enqueue c u req rt :
  dropped c rt -> dropped c (run_or_enqueue u req rt).
Proof.
  intros [Hk Hq Hi He Hp]. unfold run_or_enqueue.
  destruct (has_capacity _);
    split; unfold queued, callers, promised in *; simpl;
    rewrite ?fmap_app; simpl; auto;
    rewrite ?not_elem_of_app, ?list_elem_of_singleton; (lia || split; auto; lia).
Qed.

Lemma dropped_settle c who (o : completion R) rt :
  dropped c rt -> dropped c (settle who o rt).
Proof.
  intros [Hk Hq Hi He Hp]. unfold settle.
  destruct (List.find _ _) as [t|] eqn:Hfind; [|now split].
  apply find_some in Hfind as [Hin Hwho]. apply Nat.eqb_eq in Hwho.
  apply list_elem_of_In in Hin.
  split; unfold queued, callers, promised in *; simpl; auto.
  - intros (t' & -> & [_ Ht']%list_elem_of_filter)%list_elem_of_fmap.
    apply He. now apply list_elem_of_fmap_2.
  - rewrite fmap_app. simpl.
    intros [Hc|Hc%list_elem_of_singleton]%elem_of_app; [auto|].
    subst c. apply He. rewrite <- Hwho. now apply list_elem_of_fmap_2.
Qed.

Lemma dropped_processQueue c rt :
  dropped c rt -> dropped c (processQueue rt).
Proof.
  intros [Hk Hq Hi He Hp].
  destruct (processQueue_callers rt)
    as (started & Hsub & _ & Hinv & Hexec & Hprom & Hcalls).
  assert (c ∉ started ++ queued (processQueue rt)) as Hgone.
  { intros Hc. apply Hq. eapply elem_of_sublist; eauto. }
  apply not_elem_of_app in Hgone as [Hns Hnq].
  split; rewrite ?Hinv, ?Hexec, ?Hprom, ?Hcalls; auto;
    apply not_elem_of_app; auto.
Qed.

Lemma dropped_fire c k rt : dropped c rt -> dropped c (fire k rt).
Proof.
  intros H. unfold fire.
  destruct (timers rt !! k) as [[due key]|]; [|exact H].
  destruct (due <=? clock rt); [|exact H].
  apply dropped_processQueue. destruct H. now split.
Qed.

Lemma dropped_step c e rt : dropped c rt -> dropped c (step e rt).
Proof.
  intros H. destruct e; simpl.
  - now apply dropped_run_or_enqueue, dropped_lazy_reset.
  - now apply dropped_settle.
  - now apply dropped_fire.
  - now apply dropped_reset.
  - destruct H. now split.
Qed.

Lemma dropped_run c es : forall rt, dropped c rt -> dropped c (run es rt).
Proof.
  induction es as [|e es IH]; intros rt H; [exact H|].
  apply IH, dropped_step, H.
Qed.

(** C6: a drain starts a prefix of the items younger than 30 seconds, in
    queue order, and stops only on an empty queue or a full active set;
    an item 30 seconds old or older is neither started nor kept, and no
    promise is settled by the drain.  In a run of the controller the task
    of such an item is never started afterwards and the promise of its
    caller is never settled. *)
Theorem processQueue_drops_stale_drains_fifo :
  (forall rt, exists started,
     filter (keeps (clock rt)) (queue (this rt))
       = started ++ queue (this (processQueue rt)) /\
     invoked (processQueue rt) = invoked rt ++ (item_task <$> started) /\
     executing (processQueue rt) = executing rt ++ (item_task <$> started) /\
     promises (processQueue rt) = promises rt /\
     (queue (this (processQueue rt)) = [] \/
      has_capacity (processQueue rt) = false) /\
     forall item, stale (clock rt) item ->
       (item ∉ started) /\ (item ∉ queue (this (processQueue rt)))) /\
  (forall cfg origin (before after : list (Event R)) item,
     let rt := run before (boot cfg origin) in
     item ∈ queue (this rt) -> stale (clock rt) item ->
     let rt' := run after (processQueue rt) in
     (caller (item_task item) ∉ callers (invoked rt')) /\
     (caller (item_task item) ∉ promised rt') /\
     (caller (item_task item) ∉ queued rt')).
Proof.
  split.
  - intros rt.
    destruct (processQueue_prefix rt)
      as (started & Hq & Hinv & Hexec & Hprom & _ & _ & _ & Hstop).
    exists started. repeat split; auto.
    + intros Hin. apply (keeps_not_stale (clock rt) item); [|easy].
      assert (item ∈ filter (keeps (clock rt)) (queue (this rt))) as Hk
        by (rewrite Hq; apply elem_of_app; auto).
      now apply list_elem_of_filter in Hk as [Hk _].
    + intros Hin. apply (keeps_not_stale (clock rt) item); [|easy].
      assert (item ∈ filter (keeps (clock rt)) (queue (this rt))) as Hk
        by (rewrite Hq; apply elem_of_app; auto).
      now apply list_elem_of_filter in Hk as [Hk _].
  - intros cfg origin before after item rt Hin Hstale rt'.
    assert (consistent rt) as Hc by apply consistent_run, consistent_boot.
    destruct (dropped_run _ after _ (processQueue_drops rt item Hc Hin Hstale))
      as [_ Hq Hi _ Hp].
    auto.
Qed.

Lemma bounded_boot cfg now : bounded (@boot R cfg now).
Proof.
  split; unfold queued_keys, live_keys, queued, callers, active_size; simpl.
  - constructor.
  - apply dom_empty_L.
  - rewrite map_size_empty. lia.
  - constructor.
  - intros c Hc. now apply not_elem_of_nil in Hc.
  - reflexivity.
Qed.

(** Starting a task whose key and call number are new keeps the bound. *)
Lemma bounded_startTask t rt :
  has_capacity rt = true ->
  NoDup (queued_keys rt ++ taskKey t :: live_keys rt) ->
  dom (activeChecks (this rt)) = list_to_set (live_keys rt) ->
  active_size rt <= Z.max 0 (maxConcurrent (config (this rt))) ->
  NoDup (queued rt ++ caller t :: callers (executing rt)) ->
  (forall c, c ∈ queued rt ++ caller t :: callers (executing rt) ->
             (c < calls rt)%nat) ->
  totalStarted (stats (this rt))
    = totalCompleted (stats (this rt)) + Z.of_nat (length (live_keys rt)) ->
  bounded (startTask t rt).
Proof.
  intros Hcap Hkeys Hdom Hsize Hcallers Hknown Hstats.
  assert (live_keys (startTask t rt) ≡ₚ taskKey t :: live_keys rt) as Hlive.
  { unfold live_keys. simpl. rewrite fmap_app. simpl.
    rewrite <- app_assoc. simpl. now rewrite <- Permutation_middle. }
  assert (callers (executing (startTask t rt))
            ≡ₚ caller t :: callers (executing rt)) as Hexec.
  { unfold callers. simpl. rewrite fmap_app. simpl.
    now rewrite <- Permutation_cons_append. }
  split.
  - unfold queued_keys at 1. simpl. fold (queued_keys rt). now rewrite Hlive.
  - simpl. rewrite dom_insert_L, Hdom, Hlive. reflexivity.
  - unfold has_capacity, active_size in *. simpl.
    apply Z.ltb_lt in Hcap.
    destruct (activeChecks (this rt) !! taskKey t) eqn:E;
      [rewrite map_size_insert_Some by eauto
      |rewrite map_size_insert_None by eauto]; lia.
  - unfold queued at 1. simpl. fold (queued rt). now rewrite Hexec.
  - intros c Hc. apply Hknown. revert Hc.
    unfold queued at 1. simpl. fold (queued rt). now rewrite Hexec.
  - simpl totalStarted. simpl totalCompleted. rewrite Hlive. simpl length.
    lia.
Qed.

Lemma bounded_run_or_enqueue u req rt :
  make_key u (clock rt) ∉ queued_keys rt ++ live_keys rt ->
  bounded rt -> bounded (run_or_enqueue u req rt).
Proof.
  intros Hfresh [Hkeys Hdom Hsize Hcallers Hknown Hstats].
  assert (calls rt ∉ queued rt ++ callers (executing rt)) as Hnew.
  { intros Hc. apply Hknown in Hc. lia. }
  unfold run_or_enqueue.
  destruct (has_capacity _) eqn:Hcap.
  - apply bounded_startTask; auto; simpl.
    + fold (queued_keys rt) (live_keys rt).
      rewrite <- Permutation_middle. now apply NoDup_cons.
    + unfold queued. simpl. fold (queued rt).
      rewrite <- Permutation_middle. now apply NoDup_cons.
    + intros c. unfold queued. simpl. fold (queued rt).
      rewrite <- Permutation_middle.
      intros [->|Hc]%elem_of_cons; [lia|]. apply Hknown in Hc. lia.
  - split; auto.
    + unfold queued_keys. simpl. rewrite fmap_app. simpl.
      fold (queued_keys rt) (live_keys rt).
      rewrite <- app_assoc. simpl.
      rewrite <- Permutation_middle. now apply NoDup_cons.
    + unfold queued. simpl. rewrite fmap_app. simpl. fold (queued rt).
      rewrite <- app_assoc. simpl.
      rewrite <- Permutation_middle. now apply NoDup_cons.
    + intros c. unfold queued. simpl. rewrite fmap_app. simpl.
      fold (queued rt). rewrite <- app_assoc. simpl.
      rewrite <- Permutation_middle.
      intros [->|Hc]%elem_of_cons; [lia|]. apply Hknown in Hc. lia.
Qed.

Lemma filter_keeps_all {A} (P : A -> Prop) `{forall x, Decision (P x)}
    (l : list A) :
  (forall x, x ∈ l -> P x) -> filter P l = l.
Proof.
  induction l as [|a l IH]; intros Hall; [reflexivity|].
  rewrite filter_cons_True by (apply Hall; left).
  f_equal. apply IH. intros x Hx. apply Hall. now right.
Qed.

(** Removing the tasks of caller [who] removes one task when call
    numbers are distinct. *)
Lemma filter_out_caller who t (ts : list Task) :
  NoDup (callers ts) -> t ∈ ts -> caller t = who ->
  ts ≡ₚ t :: filter (fun t' => caller t' <> who) ts.
Proof.
  intros Hn Hin Hwho. induction ts as [|a ts IH]; simpl.
  - now apply not_elem_of_nil in Hin.
  - unfold callers in Hn. simpl in Hn. apply NoDup_cons in Hn as [Ha Hn].
    apply elem_of_cons in Hin as [<-|Hin].
    + rewrite filter_cons_False by (intros Hne; now apply Hne).
      rewrite filter_keeps_all; [reflexivity|].
      intros x Hx Heq. apply Ha. rewrite Hwho, <- Heq.
      now apply list_elem_of_fmap_2.
    + rewrite filter_cons_True.
      * rewrite (IH Hn Hin) at 1. apply Permutation_swap.
      * intros Heq. apply Ha. rewrite Heq, <- Hwho.
        now apply list_elem_of_fmap_2.
Qed.

Lemma bounded_settle who (o : completion R) rt :
  bounded rt -> bounded (settle who o rt).
Proof.
  intros [Hkeys Hdom Hsize Hcallers Hknown Hstats]. unfold settle.
  destruct (List.find _ _) as [t|] eqn:Hfind; [|now split].
  apply find_some in Hfind as [Hin Hwho]. apply Nat.eqb_eq in Hwho.
  apply list_elem_of_In in Hin.
  pose proof Hcallers as Hexec. apply NoDup_app in Hexec as (_ & _ & Hexec).
  pose proof (filter_out_caller who t _ Hexec Hin Hwho) as Hperm.
  set (rest := filter (fun t' => caller t' <> who) (executing rt)) in *.
  assert ((taskKey <$> rest) ++ (snd <$> timers rt ++ [(clock rt + 100, taskKey t)])
            ≡ₚ live_keys rt) as Hlive.
  { unfold live_keys. rewrite Hperm, fmap_app. simpl.
    rewrite app_assoc, <- Permutation_cons_append. reflexivity. }
  assert (taskKey t ∈ live_keys rt) as Hkey.
  { unfold live_keys. apply elem_of_app. left.
    now apply list_elem_of_fmap_2. }
  assert (is_Some (activeChecks (this rt) !! taskKey t)) as Hsome.
  { apply elem_of_dom. rewrite Hdom. now apply elem_of_list_to_set. }
  assert (taskKey t ∈ (list_to_set (live_keys rt) : gset string)) as Hset
    by now apply elem_of_list_to_set.
  split; unfold live_keys, queued_keys, queued, active_size; simpl;
    fold rest.
  - rewrite Hlive. exact Hkeys.
  - rewrite dom_insert_L, Hdom, Hlive.
    apply subseteq_union_1_L, singleton_subseteq_l, Hset.
  - destruct Hsome as [info Hsome].
    rewrite map_size_insert_Some by eauto. exact Hsize.
  - unfold callers in *. rewrite Hperm in Hcallers. simpl in Hcallers.
    rewrite <- Permutation_middle in Hcallers.
    now apply NoDup_cons in Hcallers as [_ Hcallers].
  - intros c Hc. apply Hknown. unfold callers in *. rewrite Hperm. simpl.
    rewrite <- Permutation_middle. now right.
  - rewrite Hlive. exact Hstats.
Qed.

Lemma bounded_sublist (q : list QueueItem) rt :
  q `sublist_of` queue (this rt) -> bounded rt -> bounded (with_queue q rt).
Proof.
  intros Hsub [Hkeys Hdom Hsize Hcallers Hknown Hstats].
  split; auto.
  - eapply sublist_NoDup; [exact Hkeys|].
    apply sublist_app; [|reflexivity].
    now apply fmap_sublist.
  - eapply sublist_NoDup; [exact Hcallers|].
    apply sublist_app; [|reflexivity].
    now apply fmap_sublist.
  - intros c Hc. apply Hknown. eapply elem_of_sublist; [exact Hc|].
    apply sublist_app; [|reflexivity].
    now apply fmap_sublist.
Qed.

Lemma bounded_drain items : forall rt,
  queue (this rt) = items -> bounded rt -> bounded (drain items rt).
Proof.
  induction items as [|item rest IH]; intros rt Hq Hb; simpl; [exact Hb|].
  destruct (has_capacity rt) eqn:Hcap; [|exact Hb].
  apply IH; [reflexivity|].
  destruct Hb as [Hkeys Hdom Hsize Hcallers Hknown Hstats].
  unfold queued_keys, queued in *. rewrite Hq in *. simpl in *.
  apply bounded_startTask; auto; unfold queued_keys, queued; simpl.
  - now rewrite <- Permutation_middle.
  - now rewrite <- Permutation_middle.
  - intros c Hc. apply Hknown. now rewrite <- Permutation_middle in Hc.
Qed.

Lemma bounded_processQueue rt : bounded rt -> bounded (processQueue rt).
Proof.
  intros Hb. unfold processQueue.
  apply bounded_drain; [reflexivity|].
  apply bounded_sublist; [apply sublist_filter|exact Hb].
Qed.

Lemma bounded_fire k rt : bounded rt -> bounded (fire k rt).
Proof.
  intros Hb. unfold fire.
  destruct (timers rt !! k) as [[due key]|] eqn:Hk; [|exact Hb].
  destruct (due <=? clock rt); [|exact Hb].
  unfold cleanup. apply bounded_processQueue.
  destruct Hb as [Hkeys Hdom Hsize Hcallers Hknown Hstats].
  pose proof (delete_Permutation _ _ _ Hk) as Hperm.
  assert (live_keys rt ≡ₚ
          key :: (taskKey <$> executing rt) ++ (snd <$> delete k (timers rt)))
    as Hlive.
  { unfold live_keys. rewrite Hperm at 1. simpl.
    now rewrite <- Permutation_middle. }
  rewrite Hlive in Hkeys, Hstats.
  rewrite <- Permutation_middle in Hkeys.
  apply NoDup_cons in Hkeys as [Hnew Hkeys].
  apply not_elem_of_app in Hnew as [_ Hnew].
  split; unfold live_keys, queued_keys, queued, active_size; simpl; auto.
  - rewrite dom_delete_L, Hdom, Hlive, list_to_set_cons.
    rewrite <- (elem_of_list_to_set (C := gset string)) in Hnew.
    rewrite difference_union_distr_l_L, difference_diag_L, union_empty_l_L.
    apply difference_disjoint_L, disjoint_singleton_r, Hnew.
  - pose proof (map_size_delete key (activeChecks (this rt))) as Hdel.
    unfold active_size in Hsize.
    destruct (activeChecks (this rt) !! key); simpl in Hdel; lia.
  - simpl in Hstats. lia.
Qed.

Lemma bounded_step e rt :
  quiet_step e rt -> bounded rt -> bounded (step e rt).
Proof.
  intros Hquiet Hb. destruct e as [u req|who o|k| |ms]; simpl in *.
  - destruct Hquiet as [Hwin Hfresh].
    unfold scheduleCheck, lazy_reset.
    destruct (Z.ltb_spec reset_window
                (clock rt - lastResetTime (stats (this rt)))); [lia|].
    now apply bounded_run_or_enqueue.
  - now apply bounded_settle.
  - now apply bounded_fire.
  - destruct Hquiet.
  - destruct Hb. now split.
Qed.

Lemma bounded_run es : forall rt,
  quiet es rt -> bounded rt -> bounded (run es rt).
Proof.
  induction es as [|e es IH]; intros rt Hquiet Hb; [exact Hb|].
  destruct Hquiet as [He Hes]. simpl.
  apply IH; [exact Hes|]. now apply bounded_step.
Qed.

Lemma bounded_executing rt :
  bounded rt ->
  Z.of_nat (length (executing rt))
    <= Z.max 0 (maxConcurrent (config (this rt))) /\
  totalCompleted (stats (this rt)) <= totalStarted (stats (this rt)).
Proof.
  intros [Hkeys Hdom Hsize _ _ Hstats].
  apply NoDup_app in Hkeys as (_ & _ & Hlive).
  split; [|lia].
  assert (size (activeChecks (this rt)) = length (live_keys rt)) as Hlen.
  { rewrite <- (size_dom (D := gset string)), Hdom.
    now apply size_list_to_set. }
  unfold active_size in Hsize. rewrite Hlen in Hsize.
  unfold live_keys in Hsize. rewrite length_app, !length_fmap in Hsize. lia.
Qed.

(** X23: as long as no event resets the controller and no call builds a key
    that is still in use, at most [maxConcurrent] check functions execute
    at once and the completions counted do not exceed the starts. *)
Theorem quiet_run_is_bounded cfg now (es : list (Event R)) :
  quiet es (boot cfg now) ->
  let rt := run es (boot cfg now) in
  Z.of_nat (length (executing rt))
    <= Z.max 0 (maxConcurrent (config (this rt))) /\
  totalCompleted (stats (this rt)) <= totalStarted (stats (this rt)).
Proof.
  intros Hquiet rt. apply bounded_executing, bounded_run;
    [exact Hquiet|apply bounded_boot].
Qed.

(** A call that finds the active set full queues its task and starts
    nothing; a drain that finds it full starts nothing either. *)
Lemma scheduleCheck_at_capacity_queues u req rt :
  let rt0 := lazy_reset rt in
  maxConcurrent (config (this rt0)) <= active_size rt0 ->
  executing (scheduleCheck u req rt) = executing rt0 /\
  invoked (scheduleCheck u req rt) = invoked rt0 /\
  queue (this (scheduleCheck u req rt))
    = queue (this rt0) ++
      [{| item_task := {| taskKey := make_key u (clock rt0); url := u;
                          requestId := req; caller := calls rt0 |};
          item_url := u; item_requestId := req;
          addedTime := clock rt0 |}].
Proof.
  intros rt0 Hfull. unfold scheduleCheck, run_or_enqueue. fold rt0.
  unfold has_capacity, active_size in *. simpl.
  destruct (Z.ltb_spec (Z.of_nat (size (activeChecks (this rt0))))
              (maxConcurrent (config (this rt0)))); [lia|].
  repeat split.
Qed.

Lemma drain_at_capacity items rt :
  has_capacity rt = false -> drain items rt = rt.
Proof. intros Hfull. destruct items; simpl; [|rewrite Hfull]; reflexivity. Qed.

(** C8: a call of [scheduleCheck] more than five minutes after
    [lastResetTime] first resets (all five counters zero, active set and
    queue empty, both stamps set to the current time) and then starts or
    queues its task on the reset controller; a call within five minutes
    starts or queues on the controller as it is. *)
Theorem scheduleCheck_lazy_reset u req rt :
  let now := clock rt in
  let c := reset now (this rt) in
  (5 * 60 * 1000 < now - lastResetTime (stats (this rt)) ->
     scheduleCheck u req rt = run_or_enqueue u req (with_this c rt) /\
     totalStarted (stats c) = 0 /\ totalCompleted (stats c) = 0 /\
     maxActive (stats c) = 0 /\ errors (stats c) = 0 /\
     successes (stats c) = 0 /\
     activeChecks c = ∅ /\ queue c = [] /\
     lastReset (stats c) = now /\ lastResetTime (stats c) = now) /\
  (now - lastResetTime (stats (this rt)) <= 5 * 60 * 1000 ->
     scheduleCheck u req rt = run_or_enqueue u req rt).
Proof.
  intros now c. unfold scheduleCheck, lazy_reset, reset_window.
  fold now. split; intros H.
  - destruct (Z.ltb_spec (5 * 60 * 1000) (now - lastResetTime (stats (this rt))));
      [|lia].
    repeat split; reflexivity.
  - destruct (Z.ltb_spec (5 * 60 * 1000) (now - lastResetTime (stats (this rt))));
      [lia|reflexivity].
Qed.

End Runtime.

(** C1: on the shared controller ([maxConcurrent] = 5) five check
    functions are executing and the active set holds five entries; the
    next call comes 300001 ms after [lastResetTime], so it resets, finds
    the active set empty and starts its task: six check functions are
    executing at once, none of them settled. *)
Theorem six_checks_execute_after_lazy_reset :
  let rt5 := run five_in_flight (healthCheckController 0) in
  let rt6 := step sixth_call rt5 in
  maxConcurrent (config (this rt6)) = 5 /\
  length (executing rt5) = 5%nat /\
  active_size rt5 = 5 /\
  clock rt5 - lastResetTime (stats (this rt5)) = 300001 /\
  callers (executing rt6) = [0; 1; 2; 3; 4; 5]%nat /\
  length (executing rt6) = 6%nat /\
  active_size rt6 = 1 /\
  promises rt6 = [].
Proof. vm_compute. repeat split. Qed.

(** C2: in the window opened by that reset one task was started; when
    two of the tasks started before the reset are cleaned up, the same
    window counts two completions. *)
Theorem completions_outrun_starts_after_reset :
  let rt6 := step sixth_call (run five_in_flight (healthCheckController 0)) in
  let rt8 := run late_completions rt6 in
  lastResetTime (stats (this rt6)) = 300001 /\
  totalStarted (stats (this rt6)) = 1 /\
  totalCompleted (stats (this rt6)) = 0 /\
  lastResetTime (stats (this rt8)) = 300001 /\
  totalStarted (stats (this rt8)) = 1 /\
  totalCompleted (stats (this rt8)) = 2.
Proof. vm_compute. repeat split. Qed.

(** The hypothesis of [quiet_run_is_bounded] at work: seven calls in one
    window, five running and two queued, then one slot handed over. *)
Example busy_minute_is_quiet :
  quiet busy_minute (healthCheckController 0) /\
  callers (executing (run busy_minute (healthCheckController 0)))
    = [1; 2; 3; 4; 5]%nat /\
  queued (run busy_minute (healthCheckController 0)) = [6]%nat.
Proof.
  split; [|vm_compute; split; reflexivity].
  cbn [quiet busy_minute quiet_step].
  repeat split; try (vm_compute; discriminate).
  all: vm_compute; intros Hin; apply list_elem_of_In in Hin; simpl in Hin.
  all: repeat (destruct Hin as [Hin|Hin]; [discriminate Hin|]); exact Hin.
Qed.

(** Calls for one URL in one millisecond build one key and share one
    entry of the active set, so all of them are started. *)
Example same_key_calls_exceed_bound :
  let rt := run same_instant (healthCheckController 0) in
  length (executing rt) = 6%nat /\ active_size rt = 1 /\
  maxConcurrent (config (this rt)) = 5.
Proof. vm_compute. repeat split. Qed.
Lemma processQueue_drops_stale_drains_fifo_witness :
  let rt := run long_wait (boot one_slot 0) in
  let rt' := run afterwards (processQueue rt) in
  waiting_item ∈ queue (this rt) /\
  stale (clock rt) waiting_item /\
  (1%nat ∉ callers (invoked rt')) /\
  (1%nat ∉ promised rt').
Proof.
  intros rt rt'.
  assert (waiting_item ∈ queue (this rt)) as Hin
    by (apply list_elem_of_In; vm_compute; auto).
  assert (stale (clock rt) waiting_item) as Hstale
    by (vm_compute; discriminate).
  destruct (proj2 processQueue_drops_stale_drains_fifo one_slot 0
              long_wait afterwards waiting_item Hin Hstale)
    as (Hi & Hp & _).
  split; [exact Hin|]. split; [exact Hstale|]. split; [exact Hi|exact Hp].
Defined.

Lemma scheduleCheck_lazy_reset_witness :
  let late := run five_in_flight (healthCheckController (R := unit) 0) in
  let early := advance 300000 (healthCheckController (R := unit) 0) in
  5 * 60 * 1000 < clock late - lastResetTime (stats (this late)) /\
  scheduleCheck "https://b6.example" "req-6" late
    = run_or_enqueue "https://b6.example" "req-6"
        (with_this (reset (clock late) (this late)) late) /\
  clock early - lastResetTime (stats (this early)) <= 5 * 60 * 1000 /\
  scheduleCheck "https://b1.example" "req-1" early
    = run_or_enqueue "https://b1.example" "req-1" early.
Proof.
  intros late early.
  assert (5 * 60 * 1000 < clock late - lastResetTime (stats (this late)))
    as Hlate by (vm_compute; reflexivity).
  assert (clock early - lastResetTime (stats (this early)) <= 5 * 60 * 1000)
    as Hearly by (vm_compute; discriminate).
  destruct (scheduleCheck_lazy_reset "https://b6.example" "req-6" late)
    as [Hreset _].
  destruct (scheduleCheck_lazy_reset "https://b1.example" "req-1" early)
    as [_ Hkeep].
  split; [exact Hlate|]. split; [exact (proj1 (Hreset Hlate))|].
  split; [exact Hearly|exact (Hkeep Hearly)].
Defined.

End ControllerFacts.

(* ===================================================================== *)
(** ** Properties of the notifier *)
(* ===================================================================== *)

Module NotifierFacts.
Import JsString Js Notifier Samples.

Lemma undelivered_throws d :
  delivered d = false -> exists e, attempt_body d = Throw e.
Proof.
  destruct d as [e|st txt|e|[|] descr]; simpl; intros H;
    try discriminate; eauto.
Qed.

(** C5: with both credentials set and the type enabled, a notifier whose
    every attempt fails posts exactly three times, sleeps
    [retryDelay * 2^(attempt-1)] after the first and after the second
    attempt (the second sleep is the longer one), calls the fallback
    after the third attempt, records the failure, and returns
    [success: false] with [usedFallback: true]. *)
Theorem failing_delivery_three_attempts_then_fallback
    {Data : Type} (formatTelegramMessage : Data -> jsstring)
    (n : Notifier) (network : Z -> Delivery)
    (ty : NotificationType) (data : Data) :
  truthy (TG_BOT_TOKEN (env n)) = true ->
  truthy (TG_CHAT_ID (env n)) = true ->
  notificationSettings (env n) ty = true ->
  maxRetries n = 3 ->
  0 < retryDelay n ->
  fallbackEnabled n = true ->
  (forall k, delivered (network k) = false) ->
  exists e effects,
    attempt_body (network 3) = Throw e /\
    sendNotification formatTelegramMessage n network ty data =
      (Some {| success := false; reason := None; attempt := Some 3;
               error_message := Some (message e);
               usedFallback := Some true |}, effects) /\
    effects =
      [ Post 1; Sleep (retryDelay n * 2 ^ (1 - 1));
        Post 2; Sleep (retryDelay n * 2 ^ (2 - 1));
        Post 3; Fallback;
        Save ([21457; 36865; 22833; 36133]%N ++ lit ": " ++ message e)
             false ] /\
    posts effects = [1; 2; 3] /\
    sleeps effects = [retryDelay n; 2 * retryDelay n] /\
    retryDelay n < 2 * retryDelay n.
Proof.
  intros Htok Hchat Hty Hmax Hdelay Hfb Hfail.
  destruct (undelivered_throws _ (Hfail 1)) as [e1 H1].
  destruct (undelivered_throws _ (Hfail 2)) as [e2 H2].
  destruct (undelivered_throws _ (Hfail 3)) as [e3 H3].
  exists e3. eexists. split; [exact H3|].
  unfold sendNotification. rewrite Htok, Hchat, Hty, Hmax. simpl.
  rewrite Hmax. simpl. rewrite H1. simpl.
  change (1 + 1) with 2. rewrite H2. simpl.
  change (2 + 1) with 3. rewrite H3, Hfb. simpl.
  split; [reflexivity|]. split; [reflexivity|].
  split; [reflexivity|]. split; [|lia].
  unfold sleeps. simpl. f_equal; [|f_equal]; lia.
Qed.

Lemma failing_delivery_three_attempts_then_fallback_witness :
  exists effects,
    fst (sendNotification (fun _ : unit => lit "backend down")
           (new_notifier alerting_env) unreachable_api error tt)
      = Some {| success := false; reason := None; attempt := Some 3;
                error_message := Some (lit "HTTP 502: Bad Gateway");
                usedFallback := Some true |} /\
    snd (sendNotification (fun _ : unit => lit "backend down")
           (new_notifier alerting_env) unreachable_api error tt) = effects /\
    sleeps effects = [1000; 2000].
Proof.
  destruct (failing_delivery_three_attempts_then_fallback
              (fun _ : unit => lit "backend down")
              (new_notifier alerting_env) unreachable_api error tt)
    as (e & effects & He & Hsend & _ & _ & Hsleeps & _);
    try reflexivity.
  exists effects. rewrite Hsend. simpl.
  injection He as <-. split; [reflexivity|]. split; [reflexivity|].
  exact Hsleeps.
Defined.

End NotifierFacts.

(* ===================================================================== *)
(** ** Further properties of controller runs *)
(* ===================================================================== *)

Module ControllerMoreFacts.
Import JsString Js Controller Samples ControllerFacts ControllerMore.
Section Runtime.
Context {R : Type}.
Implicit Types (rt : Runtime R) (item : QueueItem) (t : Task).

Lemma peak_startTask t rt :
  has_capacity rt = true -> peak_ok rt -> peak_ok (startTask t rt).
Proof.
  unfold peak_ok, has_capacity, active_size. simpl. intros Hcap Hp.
  apply Z.ltb_lt in Hcap.
  set (info := {| ci_url := Some (url t) |}).
  assert (size (<[taskKey t := info]> (activeChecks (this rt)))
          <= S (size (activeChecks (this rt))))%nat as Hsize.
  { destruct (activeChecks (this rt) !! taskKey t) eqn:E;
      [rewrite map_size_insert_Some by eauto
      |rewrite map_size_insert_None by eauto]; lia. }
  lia.
Qed.

Lemma peak_drain items : forall rt, peak_ok rt -> peak_ok (drain items rt).
Proof.
  induction items as [|item rest IH]; intros rt Hp; simpl; [exact Hp|].
  destruct (has_capacity rt) eqn:Hcap; [|exact Hp].
  apply IH, peak_startTask; auto.
Qed.

Lemma config_drain items : forall rt,
  config (this (drain items rt)) = config (this rt).
Proof.
  induction items as [|item rest IH]; intros rt; simpl; [reflexivity|].
  destruct (has_capacity rt); [|reflexivity]. now rewrite IH.
Qed.

Lemma peak_step e rt : peak_ok rt -> peak_ok (step e rt).
Proof.
  intros Hp. destruct e as [u req|who o|k| |ms]; simpl.
  - unfold scheduleCheck, run_or_enqueue.
    assert (peak_ok (lazy_reset rt)) as Hl.
    { unfold lazy_reset. destruct (_ <? _); [|exact Hp].
      unfold peak_ok in *. simpl. lia. }
    destruct (has_capacity _) eqn:Hcap; [|exact Hl].
    apply peak_startTask; [exact Hcap|exact Hl].
  - unfold settle. destruct (List.find _ _); exact Hp.
  - unfold fire. destruct (timers rt !! k) as [[due key]|]; [|exact Hp].
    destruct (due <=? clock rt); [|exact Hp].
    apply peak_drain. exact Hp.
  - unfold peak_ok in *. simpl. lia.
  - exact Hp.
Qed.

Lemma config_step e rt : config (this (step e rt)) = config (this rt).
Proof.
  destruct e as [u req|who o|k| |ms]; simpl; try reflexivity.
  - unfold scheduleCheck, run_or_enqueue, lazy_reset.
    destruct (_ <? _); destruct (has_capacity _); reflexivity.
  - unfold settle. destruct (List.find _ _); reflexivity.
  - unfold fire. destruct (timers rt !! k) as [[due key]|]; [|reflexivity].
    destruct (due <=? clock rt); [|reflexivity].
    unfold cleanup, processQueue. now rewrite config_drain.
Qed.

Lemma config_run es : forall rt, config (this (run es rt)) = config (this rt).
Proof.
  induction es as [|e es IH]; intros rt; [reflexivity|].
  change (run (e :: es) rt) with (run es (step e rt)).
  now rewrite IH, config_step.
Qed.

Lemma peak_run es : forall rt, peak_ok rt -> peak_ok (run es rt).
Proof.
  induction es as [|e es IH]; intros rt Hp; [exact Hp|].
  apply IH, peak_step, Hp.
Qed.

(** X1: the configuration never changes, and the high-water mark
    [maxActive] stays within [maxConcurrent] in every run, also in runs
    in which more check functions than that execute at once. *)
Theorem maxActive_within_maxConcurrent cfg now (es : list (Event R)) :
  let rt := run es (boot cfg now) in
  config (this rt) = config (this (@boot R cfg now)) /\
  0 <= maxActive (stats (this rt))
    <= Z.max 0 (maxConcurrent (config (this rt))).
Proof.
  intros rt. split; [apply config_run|].
  apply peak_run. unfold peak_ok. simpl. lia.
Qed.

Lemma once_boot cfg now : once (@boot R cfg now).
Proof.
  split; unfold queued, callers, promised; simpl; [constructor|].
  intros c Hc. now apply not_elem_of_nil in Hc.
Qed.

Lemma once_reset rt :
  once rt -> once (with_this (reset (clock rt) (this rt)) rt).
Proof.
  intros [Hn Hk]. split; unfold queued; simpl.
  - now apply NoDup_app in Hn as (_ & _ & Hn).
  - intros c Hc. apply Hk, elem_of_app. now right.
Qed.

Lemma once_run_or_enqueue u req rt : once rt -> once (run_or_enqueue u req rt).
Proof.
  intros [Hn Hk].
  assert (calls rt ∉ queued rt ++ callers (executing rt) ++ promised rt)
    as Hnew by (intros Hc; apply Hk in Hc; lia).
  unfold run_or_enqueue. destruct (has_capacity _).
  - assert (queued rt ++ callers (executing rt ++ [
              {| taskKey := make_key u (clock rt); url := u;
                 requestId := req; caller := calls rt |}]) ++ promised rt
            ≡ₚ calls rt :: queued rt ++ callers (executing rt) ++ promised rt)
      as Hperm.
    { unfold callers. rewrite fmap_app. simpl.
      rewrite <- app_assoc. simpl.
      rewrite <- Permutation_middle. now rewrite <- Permutation_middle. }
    split; unfold queued, promised; simpl;
      fold (queued rt) (promised rt).
    + rewrite Hperm. now apply NoDup_cons.
    + intros c. rewrite Hperm.
      intros [->|Hc]%elem_of_cons; [lia|]. apply Hk in Hc. lia.
  - assert ((queued rt ++ [calls rt]) ++ callers (executing rt) ++ promised rt
            ≡ₚ calls rt :: queued rt ++ callers (executing rt) ++ promised rt)
      as Hperm.
    { rewrite <- app_assoc. simpl. now rewrite <- Permutation_middle. }
    split; unfold queued, promised; simpl; rewrite fmap_app; simpl;
      fold (queued rt) (promised rt).
    + rewrite Hperm. now apply NoDup_cons.
    + intros c. rewrite Hperm.
      intros [->|Hc]%elem_of_cons; [lia|]. apply Hk in Hc. lia.
Qed.

Lemma once_settle who (o : completion R) rt : once rt -> once (settle who o rt).
Proof.
  intros [Hn Hk]. unfold settle.
  destruct (List.find _ _) as [t|] eqn:Hfind; [|now split].
  apply find_some in Hfind as [Hin Hwho]. apply Nat.eqb_eq in Hwho.
  apply list_elem_of_In in Hin.
  pose proof Hn as Hexec.
  apply NoDup_app in Hexec as (_ & _ & Hexec).
  apply NoDup_app in Hexec as (Hexec & _ & _).
  pose proof (filter_out_caller who t _ Hexec Hin Hwho) as Hperm.
  set (rest := filter (fun t' => caller t' <> who) (executing rt)) in *.
  assert (queued rt ++ callers rest ++ promised rt ++ [who]
          ≡ₚ queued rt ++ callers (executing rt) ++ promised rt) as Hall.
  { unfold callers. rewrite Hperm. simpl. rewrite Hwho.
    rewrite (Permutation_app_comm (promised rt) [who]). simpl.
    now rewrite <- Permutation_middle. }
  split; unfold queued, promised; simpl; rewrite fmap_app; simpl;
    fold (queued rt) (promised rt) rest.
  - now rewrite Hall.
  - intros c. rewrite Hall. apply Hk.
Qed.

Lemma once_processQueue rt : once rt -> once (processQueue rt).
Proof.
  intros [Hn Hk].
  destruct (processQueue_callers rt)
    as (started & Hsub & _ & _ & Hexec & Hprom & Hcalls).
  assert (queued (processQueue rt) ++ callers (executing (processQueue rt))
            ++ promised (processQueue rt)
          ≡ₚ (started ++ queued (processQueue rt))
               ++ callers (executing rt) ++ promised rt) as Hperm.
  { rewrite Hexec, Hprom.
    rewrite (Permutation_app_comm started), <- !app_assoc.
    f_equiv. rewrite !app_assoc. f_equiv. apply Permutation_app_comm. }
  assert ((started ++ queued (processQueue rt))
            ++ callers (executing rt) ++ promised rt
          `sublist_of` queued rt ++ callers (executing rt) ++ promised rt)
    as Hsub' by (apply sublist_app; [exact Hsub|reflexivity]).
  split.
  - rewrite Hperm. eapply sublist_NoDup; eauto.
  - intros c. rewrite Hperm, Hcalls. intros Hc. apply Hk.
    eapply elem_of_sublist; eauto.
Qed.

Lemma once_step e rt : once rt -> once (step e rt).
Proof.
  intros H. destruct e as [u req|who o|k| |ms]; simpl.
  - apply once_run_or_enqueue. unfold lazy_reset.
    destruct (_ <? _); [now apply once_reset|exact H].
  - now apply once_settle.
  - unfold fire. destruct (timers rt !! k) as [[due key]|]; [|exact H].
    destruct (due <=? clock rt); [|exact H].
    apply once_processQueue. destruct H. now split.
  - now apply once_reset.
  - destruct H. now split.
Qed.

Lemma once_run es : forall rt, once rt -> once (run es rt).
Proof.
  induction es as [|e es IH]; intros rt H; [exact H|].
  apply IH, once_step, H.
Qed.

(** X2: in every run a promise is settled at most once, and a call whose
    promise is settled is neither executing nor queued any more; its
    check function had been called. *)
Theorem promise_settled_once cfg now (es : list (Event R)) :
  let rt := run es (boot cfg now) in
  NoDup (promised rt) /\
  forall c, c ∈ promised rt ->
    (c ∉ callers (executing rt)) /\ (c ∉ queued rt) /\
    (c ∈ callers (invoked rt)).
Proof.
  intros rt.
  destruct (once_run es _ (once_boot cfg now)) as [Hn _]. fold rt in Hn.
  destruct (consistent_run es _ (consistent_boot cfg now))
    as [_ _ _ _ _ Hp]. fold rt in Hp.
  apply NoDup_app in Hn as (_ & Hq & Hn).
  apply NoDup_app in Hn as (_ & He & Hn).
  split; [exact Hn|]. intros c Hc. repeat split.
  - intros Hx. now apply (He c).
  - intros Hx. apply (Hq c Hx). apply elem_of_app. now right.
  - now apply Hp.
Qed.

Lemma idle_step e rt :
  maxConcurrent (config (this rt)) <= 0 -> idle rt -> idle (step e rt).
Proof.
  intros Hzero [Hi He Hp].
  assert (forall rt' : Runtime R,
            maxConcurrent (config (this rt')) <= 0 ->
            has_capacity rt' = false) as Hfull.
  { intros rt' H. unfold has_capacity, active_size.
    apply Z.ltb_ge. lia. }
  destruct e as [u req|who o|k| |ms]; simpl.
  - unfold scheduleCheck, run_or_enqueue.
    rewrite Hfull.
    + unfold lazy_reset. destruct (_ <? _); now split.
    + simpl. unfold lazy_reset. now destruct (_ <? _).
  - unfold settle. rewrite He. simpl. now split.
  - unfold fire. destruct (timers rt !! k) as [[due key]|]; [|now split].
    destruct (due <=? clock rt); [|now split].
    unfold cleanup, processQueue. rewrite drain_at_capacity; [now split|].
    now apply Hfull.
  - now split.
  - now split.
Qed.

(** X3: a controller configured with [maxConcurrent] 0 or less never
    calls a check function and never settles a promise: every call
    waits in the queue. *)
Theorem zero_capacity_runs_nothing cfg now (es : list (Event R)) :
  maxConcurrent cfg <= 0 ->
  let rt := run es (boot (Some cfg) now) in
  invoked rt = [] /\ executing rt = [] /\ promises rt = [].
Proof.
  intros Hzero rt.
  assert (forall rt0 : Runtime R,
            maxConcurrent (config (this rt0)) <= 0 -> idle rt0 ->
            idle (run es rt0)) as Hrun.
  { induction es as [|e es IH]; intros rt0 Hz Hi; [exact Hi|].
    apply IH; [now rewrite config_step|now apply idle_step]. }
  destruct (Hrun (boot (Some cfg) now)) as [Hi He Hp]; auto.
  now split.
Qed.

Lemma stats_outcomes_drain items : forall rt,
  stats_of (drain items rt) = stats_of rt /\
  promises (drain items rt) = promises rt /\
  timers (drain items rt) = timers rt.
Proof.
  induction items as [|item rest IH]; intros rt; simpl; [auto|].
  destruct (has_capacity rt); [|auto].
  destruct (IH (startTask (item_task item) (with_queue rest rt)))
    as (Hs & Hp & Ht).
  rewrite Hs, Hp, Ht. auto.
Qed.

Lemma counted_keep rt rt' :
  stats_of rt' = stats_of rt -> promises rt' = promises rt ->
  timers rt' = timers rt -> counted rt -> counted rt'.
Proof.
  unfold stats_of. intros Hs Hp Ht [H1 H2 H3].
  injection Hs as Hs1 Hs2 Hs3.
  split; unfold fulfilled, rejected in *; rewrite ?Hs1, ?Hs2, ?Hs3, ?Hp, ?Ht;
    auto.
Qed.

Lemma counted_step e rt : quiet_step e rt -> counted rt -> counted (step e rt).
Proof.
  intros Hquiet Hc. destruct e as [u req|who o|k| |ms]; simpl in *.
  - destruct Hquiet as [Hwin _].
    unfold scheduleCheck, lazy_reset.
    destruct (Z.ltb_spec reset_window
                (clock rt - lastResetTime (stats (this rt)))); [lia|].
    unfold run_or_enqueue.
    destruct (has_capacity _);
      (apply (counted_keep rt); [reflexivity|reflexivity|reflexivity|exact Hc]).
  - unfold settle. destruct (List.find _ _) as [t|]; [|exact Hc].
    destruct Hc as [H1 H2 H3].
    split; unfold fulfilled, rejected, is_fulfilled in *; simpl;
      rewrite ?List.filter_app, ?length_app; simpl;
      destruct o; simpl; lia.
  - unfold fire. destruct (timers rt !! k) as [[due key]|] eqn:Hk; [|exact Hc].
    destruct (due <=? clock rt); [|exact Hc].
    unfold cleanup, processQueue.
    match goal with |- counted (drain ?q ?r) =>
      destruct (stats_outcomes_drain q r) as (Hs & Hp & Ht) end.
    eapply counted_keep; [exact Hs|exact Hp|exact Ht|].
    clear Hs Hp Ht. destruct Hc as [H1 H2 H3].
    assert (length (delete k (timers rt)) = length (timers rt) - 1)%nat
      as Hlen by (apply length_delete; eauto).
    apply lookup_lt_Some in Hk.
    split; unfold fulfilled, rejected in *; simpl; auto. lia.
  - destruct Hquiet.
  - destruct Hc. now split.
Qed.

Lemma counted_run es : forall rt,
  quiet es rt -> counted rt -> counted (run es rt).
Proof.
  induction es as [|e es IH]; intros rt Hquiet Hc; [exact Hc|].
  destruct Hquiet as [He Hes]. apply IH; [exact Hes|].
  now apply counted_step.
Qed.

(** X4: as long as no event resets the controller and no call reuses a
    key in use, [successes] and [errors] count the promises fulfilled
    and rejected, every started task is still executing or counted in
    one of them, and [totalCompleted] lags behind them by the clean-up
    timers still pending. *)
Theorem quiet_run_counts_outcomes cfg now (es : list (Event R)) :
  quiet es (boot cfg now) ->
  let rt := run es (boot cfg now) in
  successes (stats (this rt)) = fulfilled rt /\
  errors (stats (this rt)) = rejected rt /\
  totalStarted (stats (this rt))
    = successes (stats (this rt)) + errors (stats (this rt))
      + Z.of_nat (length (executing rt)) /\
  totalCompleted (stats (this rt))
    = successes (stats (this rt)) + errors (stats (this rt))
      - Z.of_nat (length (timers rt)).
Proof.
  intros Hquiet rt.
  assert (counted (@boot R cfg now)) as Hboot by (split; reflexivity).
  destruct (counted_run es _ Hquiet Hboot) as [H1 H2 H3]. fold rt in H1, H2, H3.
  destruct (bounded_run es _ Hquiet (bounded_boot cfg now))
    as [_ _ _ _ _ Hstarted]. fold rt in Hstarted.
  unfold live_keys in Hstarted.
  rewrite length_app, !length_fmap in Hstarted.
  repeat split; auto; lia.
Qed.

(** A reset gives up every queued call. *)
Lemma reset_drops c rt :
  consistent rt -> c ∈ queued rt ->
  dropped c (with_this (reset (clock rt) (this rt)) rt).
Proof.
  intros [Hq Hi Hn Hw He Hp] Hc. split; simpl; auto.
  - unfold queued. simpl. apply not_elem_of_nil.
  - intros Hx. now apply (Hw c); auto.
  - intros Hx. now apply (Hw c); auto.
Qed.

Lemma item_queued item rt :
  item ∈ queue (this rt) -> caller (item_task item) ∈ queued rt.
Proof.
  intros Hin. unfold queued.
  now apply (list_elem_of_fmap_2 (fun i => caller (item_task i))).
Qed.

(** X5: a reset gives up the queued calls whatever their age: a task
    that was waiting in the queue when [reset()] runs, or when a call of
    [scheduleCheck] finds the five-minute window over, is never started
    afterwards and its caller's promise is never settled. *)
Theorem reset_abandons_queued_calls cfg now (before after : list (Event R))
    u req item :
  let rt := run before (boot cfg now) in
  item ∈ queue (this rt) ->
  (let rt' := run after (step CallReset rt) in
   (caller (item_task item) ∉ callers (invoked rt')) /\
   (caller (item_task item) ∉ promised rt')) /\
  (reset_window < clock rt - lastResetTime (stats (this rt)) ->
   let rt' := run after (step (Call u req) rt) in
   (caller (item_task item) ∉ callers (invoked rt')) /\
   (caller (item_task item) ∉ promised rt')).
Proof.
  intros rt Hin.
  assert (consistent rt) as Hc by apply consistent_run, consistent_boot.
  pose proof (reset_drops _ rt Hc (item_queued _ _ Hin)) as Hd.
  split.
  - intros rt'. destruct (dropped_run _ after _ Hd) as [_ _ Hi _ Hp]. auto.
  - intros Hwin rt'.
    assert (dropped (caller (item_task item)) (step (Call u req) rt)) as Hd'.
    { simpl. unfold scheduleCheck, lazy_reset.
      destruct (Z.ltb_spec reset_window
                  (clock rt - lastResetTime (stats (this rt)))); [|lia].
      now apply dropped_run_or_enqueue. }
    destruct (dropped_run _ after _ Hd') as [_ _ Hi _ Hp]. auto.
Qed.

(** What a drain does with one queued item. *)
Lemma processQueue_fate item rt :
  consistent rt -> item ∈ queue (this rt) ->
  item ∈ queue (this (processQueue rt)) \/
  caller (item_task item) ∈ callers (invoked (processQueue rt)) \/
  dropped (caller (item_task item)) (processQueue rt).
Proof.
  intros Hc Hin.
  destruct (decide (keeps (clock rt) item)) as [Hk|Hk].
  - destruct (processQueue_prefix rt) as (started & Hq & Hinv & _).
    assert (item ∈ started ++ queue (this (processQueue rt))) as Hx
      by (rewrite <- Hq; now apply list_elem_of_filter).
    apply elem_of_app in Hx as [Hx|Hx]; [|now left].
    right. left. rewrite Hinv. unfold callers. rewrite fmap_app.
    apply elem_of_app. right. rewrite <- list_fmap_compose.
    now apply (list_elem_of_fmap_2 (caller ∘ item_task)).
  - right. right. apply processQueue_drops; auto.
    unfold keeps, stale in *. lia.
Qed.

Lemma invoked_grows c e rt :
  c ∈ callers (invoked rt) -> c ∈ callers (invoked (step e rt)).
Proof.
  intros Hc. destruct e as [u req|who o|k| |ms]; simpl; auto.
  - unfold scheduleCheck, run_or_enqueue, lazy_reset.
    destruct (_ <? _); destruct (has_capacity _); simpl; auto;
      unfold callers; rewrite fmap_app; apply elem_of_app; now left.
  - unfold settle. now destruct (List.find _ _).
  - unfold fire. destruct (timers rt !! k) as [[due key]|]; [|exact Hc].
    destruct (due <=? clock rt); [|exact Hc].
    unfold cleanup.
    match goal with |- _ ∈ callers (invoked (processQueue ?r)) =>
      destruct (processQueue_prefix r) as (started & _ & Hinv & _) end.
    rewrite Hinv. unfold callers. rewrite fmap_app.
    apply elem_of_app. now left.
Qed.

Lemma step_fate item e rt :
  consistent rt -> item ∈ queue (this rt) ->
  item ∈ queue (this (step e rt)) \/
  caller (item_task item) ∈ callers (invoked (step e rt)) \/
  dropped (caller (item_task item)) (step e rt).
Proof.
  intros Hc Hin. destruct e as [u req|who o|k| |ms]; simpl.
  - unfold scheduleCheck, lazy_reset. destruct (_ <? _).
    + right. right. apply dropped_run_or_enqueue, reset_drops; auto.
      now apply item_queued.
    + left. unfold run_or_enqueue. destruct (has_capacity _); simpl; auto.
      apply elem_of_app. now left.
  - left. unfold settle. now destruct (List.find _ _).
  - unfold fire. destruct (timers rt !! k) as [[due key]|]; [|now left].
    destruct (due <=? clock rt); [|now left].
    apply processQueue_fate; [|exact Hin]. destruct Hc. now split.
  - right. right. apply reset_drops; auto. now apply item_queued.
  - now left.
Qed.

Lemma processQueue_order a b rt :
  consistent rt -> waits_before a b rt -> fifo_state a b (processQueue rt).
Proof.
  intros Hc (l1 & l2 & l3 & Hq).
  assert (a ∈ queue (this rt)) as Ha.
  { rewrite Hq. apply elem_of_app. right. left. }
  assert (b ∈ queue (this rt)) as Hb.
  { rewrite Hq. apply elem_of_app. right. right.
    apply elem_of_app. right. left. }
  destruct (decide (keeps (clock rt) b)) as [Hkb|Hkb].
  - destruct (decide (keeps (clock rt) a)) as [Hka|Hka].
    + destruct (processQueue_prefix rt) as (started & Hf & Hinv & _).
      rewrite Hq, filter_app, filter_cons_True, filter_app,
        filter_cons_True in Hf by assumption.
      symmetry in Hf. apply app_eq_inv in Hf as [(k & Hs & Hk)|(k & Hs & Hk)].
      * destruct k as [|x k]; simpl in Hk.
        -- left. eexists [], _, _. symmetry. exact Hk.
        -- injection Hk as <- Hk. right. right. left.
           rewrite Hinv, Hs. unfold callers. rewrite !fmap_app. simpl.
           apply elem_of_app. right. apply elem_of_app. right. left.
      * left. eexists k, _, _. exact Hk.
    + right. right. right. apply processQueue_drops; auto.
      unfold keeps, stale in *. lia.
  - assert (dropped (caller (item_task b)) (processQueue rt)) as Hd.
    { apply processQueue_drops; auto. unfold keeps, stale in *. lia. }
    destruct (processQueue_fate a rt Hc Ha) as [H|[H|H]].
    + right. left. now split.
    + right. right. now left.
    + right. right. now right.
Qed.

Lemma fifo_step a b e rt :
  consistent rt -> fifo_state a b rt -> fifo_state a b (step e rt).
Proof.
  intros Hc [Hw|[[Ha Hd]|[Hi|Hd]]].
  - pose proof Hw as (l1 & l2 & l3 & Hq).
    assert (a ∈ queue (this rt)) as Ha.
    { rewrite Hq. apply elem_of_app. right. left. }
    destruct e as [u req|who o|k| |ms].
    + simpl. unfold scheduleCheck, lazy_reset. destruct (_ <? _).
      * right. right. right.
        apply dropped_run_or_enqueue, reset_drops; auto.
        now apply item_queued.
      * left. unfold waits_before, run_or_enqueue.
        destruct (has_capacity _); simpl; rewrite Hq.
        -- now exists l1, l2, l3.
        -- eexists l1, l2, (l3 ++ _).
           rewrite <- !app_assoc. simpl. rewrite <- !app_assoc. reflexivity.
    + left. unfold waits_before. simpl. unfold settle.
      destruct (List.find _ _); simpl; now exists l1, l2, l3.
    + simpl. unfold fire.
      destruct (timers rt !! k) as [[due key]|]; [|now left].
      destruct (due <=? clock rt); [|now left].
      apply processQueue_order; [destruct Hc; now split|].
      now exists l1, l2, l3.
    + right. right. right. simpl. apply reset_drops; auto.
      now apply item_queued.
    + left. now exists l1, l2, l3.
  - pose proof (dropped_step _ e _ Hd) as Hd'.
    destruct (step_fate a e rt Hc Ha) as [H|[H|H]].
    + right. left. now split.
    + right. right. now left.
    + right. right. now right.
  - right. right. left. now apply invoked_grows.
  - right. right. right. now apply dropped_step.
Qed.

Lemma fifo_run a b es : forall rt,
  consistent rt -> fifo_state a b rt -> fifo_state a b (run es rt).
Proof.
  induction es as [|e es IH]; intros rt Hc Hf; [exact Hf|].
  apply IH; [now apply consistent_step|now apply fifo_step].
Qed.

(** X6: the queue is first in, first out.  If item [a] waits in the
    queue before item [b], then at any later time at which the task of
    [b] has been started, the task of [a] has been started too, unless
    [a] was given up (discarded as stale or by a reset). *)
Theorem queue_is_fifo cfg now (before after : list (Event R)) a b :
  let rt := run before (boot cfg now) in
  waits_before a b rt ->
  let rt' := run after rt in
  caller (item_task b) ∈ callers (invoked rt') ->
  caller (item_task a) ∈ callers (invoked rt') \/
  dropped (caller (item_task a)) rt'.
Proof.
  intros rt Hw rt' Hb.
  assert (consistent rt) as Hc by apply consistent_run, consistent_boot.
  assert (consistent rt') as Hc' by now apply consistent_run.
  destruct (fifo_run a b after rt Hc (or_introl Hw))
    as [(l1 & l2 & l3 & Hq)|[[_ Hd]|[Hi|Hd]]]; auto.
  - exfalso. destruct Hc' as [_ _ _ Hwait _ _].
    apply (Hwait (caller (item_task b))); [|exact Hb].
    apply item_queued. unfold rt'. rewrite Hq.
    apply elem_of_app. right. right. apply elem_of_app. right. left.
  - exfalso. destruct Hd as [_ _ Hn _ _]. now apply Hn.
Qed.

End Runtime.

Lemma promise_settled_once_witness :
  let rt := run long_wait (boot one_slot 0) in
  0%nat ∈ promised rt /\ (0%nat ∉ callers (executing rt)) /\
  (0%nat ∉ queued rt).
Proof.
  intros rt.
  assert (0%nat ∈ promised rt) as Hin
    by (apply list_elem_of_In; vm_compute; auto).
  destruct (promise_settled_once one_slot 0 long_wait) as [_ H].
  destruct (H 0%nat Hin) as (He & Hq & _).
  split; [exact Hin|]. split; [exact He|exact Hq].
Defined.

Lemma zero_capacity_runs_nothing_witness :
  maxConcurrent no_slot <= 0 /\
  invoked (run three_calls (boot (Some no_slot) 0)) = [] /\
  queued (run three_calls (boot (Some no_slot) 0)) = [0; 1; 2]%nat.
Proof.
  assert (maxConcurrent no_slot <= 0) as Hzero by (vm_compute; discriminate).
  split; [exact Hzero|]. split.
  - exact (proj1 (zero_capacity_runs_nothing no_slot 0 three_calls Hzero)).
  - vm_compute. reflexivity.
Defined.

Lemma quiet_run_counts_outcomes_witness :
  let rt := run busy_minute (healthCheckController 0) in
  totalStarted (stats (this rt)) = 6 /\
  successes (stats (this rt)) = 1 /\
  totalStarted (stats (this rt))
    = successes (stats (this rt)) + errors (stats (this rt))
      + Z.of_nat (length (executing rt)).
Proof.
  intros rt.
  destruct (quiet_run_counts_outcomes
              (Some {| maxConcurrent := 5 |}) 0 busy_minute
              (proj1 busy_minute_is_quiet)) as (_ & _ & H & _).
  split; [vm_compute; reflexivity|]. split; [vm_compute; reflexivity|].
  exact H.
Defined.

Lemma quiet_run_is_bounded_witness :
  let rt := run busy_minute (healthCheckController 0) in
  Z.of_nat (length (executing rt)) <= 5 /\
  totalCompleted (stats (this rt)) <= totalStarted (stats (this rt)).
Proof.
  intros rt.
  destruct (quiet_run_is_bounded
              (Some {| maxConcurrent := 5 |}) 0 busy_minute
              (proj1 busy_minute_is_quiet)) as [Hb Hc].
  split; [|exact Hc].
  replace 5 with (Z.max 0 (maxConcurrent (config (this rt))))
    by (vm_compute; reflexivity).
  exact Hb.
Defined.

Lemma reset_abandons_queued_calls_witness :
  let rt := run queued_late (boot one_slot 0) in
  let rt' := run first_answer (step (Call "https://b3.example" "req-3") rt) in
  late_item ∈ queue (this rt) /\
  clock rt - addedTime late_item = 11 /\
  reset_window < clock rt - lastResetTime (stats (this rt)) /\
  (1%nat ∉ callers (invoked rt')) /\ (1%nat ∉ promised rt').
Proof.
  intros rt rt'.
  assert (late_item ∈ queue (this rt)) as Hin
    by (apply list_elem_of_In; vm_compute; auto).
  assert (reset_window < clock rt - lastResetTime (stats (this rt))) as Hwin
    by (vm_compute; reflexivity).
  destruct (reset_abandons_queued_calls one_slot 0 queued_late first_answer
              "https://b3.example" "req-3" late_item Hin) as [_ H].
  destruct (H Hwin) as [Hi Hp].
  split; [exact Hin|]. split; [vm_compute; reflexivity|].
  split; [exact Hwin|]. split; [exact Hi|exact Hp].
Defined.

Lemma queue_is_fifo_witness :
  let rt := run two_waiting (boot one_slot 0) in
  let rt' := run both_served rt in
  waits_before waiting_item third_item rt /\
  2%nat ∈ callers (invoked rt') /\
  (1%nat ∈ callers (invoked rt') \/ dropped 1%nat rt').
Proof.
  intros rt rt'.
  assert (waits_before waiting_item third_item rt) as Hw
    by (exists [], [], []; vm_compute; reflexivity).
  assert (2%nat ∈ callers (invoked rt')) as Hb
    by (apply list_elem_of_In; vm_compute; auto).
  split; [exact Hw|]. split; [exact Hb|].
  exact (queue_is_fifo one_slot 0 two_waiting both_served
           waiting_item third_item Hw Hb).
Defined.

End ControllerMoreFacts.

(* ===================================================================== *)
(** ** Further properties of the probes *)
(* ===================================================================== *)

Module ProbeMoreFacts.
Import JsString Js Version Probe ProbeMore Samples.

Section Checks.
Context {score : Type} (score0 : score)
        (calculateResponseTimeScore : Z -> score).

Abbreviation priorityCheckFn :=
  (priorityCheckFn score0 calculateResponseTimeScore).
Abbreviation fullCheckFn := (fullCheckFn score0 calculateResponseTimeScore).

(** X7: the fast check reports healthy exactly when [fetch] resolves with
    status 200, whatever the body does; the full check exactly when,
    in addition, the body can be read. *)
Theorem healthy_iff_status_200 x :
  exists fast full,
    priorityCheckFn x = Normal fast /\
    fullCheckFn x = Normal full /\
    (healthy fast = true <->
       exists response,
         fetched x = Normal response /\ resp_status response = 200) /\
    (healthy full = true <->
       exists response text,
         fetched x = Normal response /\ resp_status response = 200 /\
         resp_text response = Normal text).
Proof.
  unfold Probe.priorityCheckFn, Probe.fullCheckFn.
  destruct (fetched x) as [response|e] eqn:Hf; simpl;
    [destruct (Z.eqb_spec (resp_status response) 200) as [Hs|Hs];
       [destruct (resp_text response) as [text|e] eqn:Ht; simpl|]|];
    do 2 eexists; (split; [reflexivity|]); (split; [reflexivity|]);
    simpl; split; split; intros H;
    solve [ discriminate | reflexivity | apply orb_true_r | eauto 7
          | decompose [ex and] H; congruence ].
Qed.

(** X8: except on an answer 200 whose body cannot be read, the full
    check returns what the fast check returns, under the tag [normal]:
    it is no stricter. *)
Theorem fullCheck_is_priorityCheck_relabelled x :
  ~ unreadable_200 x ->
  fullCheckFn x = relabel normal (priorityCheckFn x).
Proof.
  intros Hx. unfold Probe.priorityCheckFn, Probe.fullCheckFn.
  destruct (fetched x) as [response|e] eqn:Hf; simpl; [|reflexivity].
  destruct (Z.eqb_spec (resp_status response) 200) as [Hs|Hs];
    [|reflexivity].
  destruct (resp_text response) as [text|e] eqn:Ht; simpl.
  - unfold with_priority. simpl. now rewrite orb_true_r.
  - destruct Hx. now exists response, e.
Qed.

(** X9: the shape of a probe result.  Both check functions end
    normally; the result carries an error name exactly when [fetch]
    rejected, and then it has no response time and status 0; otherwise
    the response time is the time the fetch took; the version string is
    never empty; an unhealthy result of the fast check has score 0. *)
Theorem probe_result_shape x :
  exists fast full,
    priorityCheckFn x = Normal fast /\
    fullCheckFn x = Normal full /\
    priority fast = high /\ priority full = normal /\
    version fast <> [] /\ version full <> [] /\
    (healthy fast = false -> responseTimeScore fast = score0) /\
    match fetched x with
    | Throw e =>
        error fast = Some (name e) /\ error full = Some (name e) /\
        responseTime fast = None /\ responseTime full = None /\
        status fast = 0 /\ status full = 0
    | Normal response =>
        error fast = None /\ error full = None /\
        responseTime fast = Some (fetchedAt x - startTime x) /\
        responseTime full = Some (fetchedAt x - startTime x) /\
        status fast = resp_status response /\
        status full = resp_status response
    end.
Proof.
  assert (forall text, extractVersionFromText (JString text) <> []) as Hne.
  { intros [|c text]; simpl; [discriminate|].
    apply VersionFacts.extract_string_nonempty. }
  unfold Probe.priorityCheckFn, Probe.fullCheckFn.
  destruct (fetched x) as [response|e] eqn:Hf; simpl;
    [destruct (resp_status response =? 200) eqn:Hs;
       [destruct (resp_text response) as [text|e] eqn:Ht; simpl|]|];
    do 2 eexists; (split; [reflexivity|]); (split; [reflexivity|]);
    simpl; repeat split;
    solve [ reflexivity | discriminate | apply Hne | intros; discriminate ].
Qed.

End Checks.

Lemma healthy_iff_status_200_witness :
  exists fast full,
    Probe.priorityCheckFn 0 linear_score broken_body = Normal fast /\
    Probe.fullCheckFn 0 linear_score broken_body = Normal full /\
    healthy fast = true /\ healthy full = false.
Proof.
  destruct (healthy_iff_status_200 0 linear_score broken_body)
    as (fast & full & Hfast & Hfull & [_ H1] & [H2 _]).
  exists fast, full. split; [exact Hfast|]. split; [exact Hfull|]. split.
  - apply H1. eexists. split; reflexivity.
  - destruct (healthy full); [|reflexivity].
    destruct (H2 eq_refl) as (r & t & Hr & _ & Ht).
    injection Hr as <-. discriminate.
Defined.

Lemma fullCheck_is_priorityCheck_relabelled_witness :
  Probe.fullCheckFn 0 linear_score foreign_page
    = relabel normal (Probe.priorityCheckFn 0 linear_score foreign_page).
Proof.
  apply fullCheck_is_priorityCheck_relabelled.
  intros (r & e & Hr & _ & Ht). injection Hr as <-. discriminate.
Defined.

Lemma probe_result_shape_witness :
  exists fast,
    Probe.priorityCheckFn 0 linear_score timed_out = Normal fast /\
    healthy fast = false /\ responseTimeScore fast = 0.
Proof.
  destruct (probe_result_shape 0 linear_score timed_out)
    as (fast & full & Hfast & _ & _ & _ & _ & _ & Hscore & _).
  exists fast. split; [exact Hfast|].
  assert (healthy fast = false) as Hh.
  { vm_compute in Hfast. injection Hfast as <-. reflexivity. }
  split; [exact Hh|exact (Hscore Hh)].
Defined.

End ProbeMoreFacts.

(* ===================================================================== *)
(** ** Further properties of the notifier *)
(* ===================================================================== *)

Module NotifierMoreFacts.
Import JsString Js Notifier NotifierMore Samples.

Lemma delivered_completes d :
  delivered d = true -> attempt_body d = Normal tt.
Proof. destruct d as [e|st txt|e|[|] descr]; simpl; easy. Qed.

Section Send.
Context {Data : Type} (formatTelegramMessage : Data -> jsstring).

(** The retry loop from attempt [a] on, with the fuel that is left. *)
Lemma attempts_from n network (data : Data) : forall fuel a,
  1 <= a <= maxRetries n ->
  Z.of_nat fuel = maxRetries n - a + 1 ->
  exists out k effects,
    attempts formatTelegramMessage n network data fuel a
      = (Some out, effects) /\
    a <= k <= maxRetries n /\
    attempt out = Some k /\
    (forall j, a <= j < k -> delivered (network j) = false) /\
    success out = delivered (network k) /\
    (success out = false -> k = maxRetries n) /\
    posts effects = seqZ a (k - a + 1) /\
    sleeps effects = backoff n <$> seqZ a (k - a) /\
    saves effects = [success out] /\
    used_fallback effects = negb (success out) && fallbackEnabled n.
Proof.
  induction fuel as [|fuel IH]; intros a Ha Hfuel; [lia|].
  simpl. destruct (Z.leb_spec a (maxRetries n)); [|lia].
  destruct (delivered (network a)) eqn:Hd.
  - rewrite (delivered_completes _ Hd).
    eexists _, a, _. split; [reflexivity|]. simpl.
    replace (a - a + 1) with 1 by lia. replace (a - a) with 0 by lia.
    repeat split; try lia; auto.
  - destruct (NotifierFacts.undelivered_throws _ Hd) as [e He]. rewrite He.
    destruct (Z.ltb_spec a (maxRetries n)).
    + destruct (IH (a + 1)) as
        (out & k & effects & Hrun & Hk & Hatt & Hfail & Hsucc & Hlast
         & Hposts & Hsleeps & Hsaves & Hfb); [lia|lia|].
      rewrite Hrun. exists out, k, (Post a :: Sleep (retryDelay n * 2 ^ (a - 1)) :: effects).
      split; [reflexivity|]. split; [lia|]. split; [exact Hatt|].
      split.
      { intros j Hj. destruct (Z.eq_dec j a) as [->|Hne]; [exact Hd|].
        apply Hfail. lia. }
      split; [exact Hsucc|]. split; [exact Hlast|].
      split.
      { unfold posts in *. simpl. rewrite Hposts.
        rewrite (seqZ_cons a (k - a + 1)) by lia.
        f_equal. f_equal; lia. }
      split.
      { unfold sleeps in *. simpl. rewrite Hsleeps.
        rewrite (seqZ_cons a (k - a)) by lia. simpl.
        f_equal. f_equal. f_equal; lia. }
      split; [exact Hsaves|exact Hfb].
    + assert (a = maxRetries n) as Hlast by lia.
      eexists _, a, _. split; [reflexivity|]. simpl.
      replace (a - a + 1) with 1 by lia. replace (a - a) with 0 by lia.
      rewrite Hd.
      repeat split; try lia; auto.
      * unfold posts. simpl. rewrite flat_map_app. simpl.
        destruct (fallbackEnabled n); reflexivity.
      * unfold sleeps. simpl. rewrite flat_map_app. simpl.
        destruct (fallbackEnabled n); reflexivity.
      * unfold saves. simpl. rewrite flat_map_app. simpl.
        destruct (fallbackEnabled n); reflexivity.
      * unfold used_fallback. simpl. rewrite existsb_app. simpl.
        destruct (fallbackEnabled n); reflexivity.
Qed.

(** The requests and sleeps of an enabled notifier, read off the loop. *)
Lemma enabled_effects n network ty (data : Data) :
  truthy (TG_BOT_TOKEN (env n)) = true ->
  truthy (TG_CHAT_ID (env n)) = true ->
  notificationSettings (env n) ty = true ->
  1 <= maxRetries n ->
  exists k,
    1 <= k <= maxRetries n /\
    posts (snd (sendNotification formatTelegramMessage n network ty data))
      = seqZ 1 k /\
    sleeps (snd (sendNotification formatTelegramMessage n network ty data))
      = backoff n <$> seqZ 1 (k - 1).
Proof.
  intros Htok Hchat Hty Hmax.
  unfold sendNotification. rewrite Htok, Hchat, Hty. simpl.
  destruct (attempts_from n network data (Z.to_nat (maxRetries n)) 1)
    as (out & k & effects & Hrun & Hk & _ & _ & _ & _
        & Hposts & Hsleeps & _); [lia|lia|].
  exists k. rewrite Hrun. cbn [snd].
  replace (k - 1 + 1) with k in Hposts by lia.
  split; [lia|]. split; assumption.
Qed.

(** A notifier that is not enabled for the type does nothing. *)
Lemma gated_effects n network ty (data : Data) :
  truthy (TG_BOT_TOKEN (env n)) && truthy (TG_CHAT_ID (env n))
    && notificationSettings (env n) ty = false ->
  snd (sendNotification formatTelegramMessage n network ty data) = [].
Proof.
  intros Hgate. unfold sendNotification.
  destruct (truthy (TG_BOT_TOKEN (env n))); simpl in *;
    [destruct (truthy (TG_CHAT_ID (env n))); simpl in *;
       [rewrite Hgate; simpl|]|];
    reflexivity.
Qed.

(** X10: with both credentials set, the type enabled and [maxRetries] at
    least 1, [sendNotification] returns an outcome whatever the network
    does.  Its [attempt] is the first attempt that delivered, or
    [maxRetries] when none did; there is one post per attempt up to that
    one, a sleep of [retryDelay * 2^(j-1)] after each failed attempt [j]
    but the last, one call of [saveNotificationToDB] carrying the
    outcome, and the fallback is called exactly on failure (if it is
    enabled). *)
Theorem sendNotification_stops_at_first_delivery n network ty (data : Data) :
  truthy (TG_BOT_TOKEN (env n)) = true ->
  truthy (TG_CHAT_ID (env n)) = true ->
  notificationSettings (env n) ty = true ->
  1 <= maxRetries n ->
  exists out k effects,
    sendNotification formatTelegramMessage n network ty data
      = (Some out, effects) /\
    1 <= k <= maxRetries n /\
    attempt out = Some k /\
    (forall j, 1 <= j < k -> delivered (network j) = false) /\
    success out = delivered (network k) /\
    (success out = false -> k = maxRetries n) /\
    posts effects = seqZ 1 k /\
    sleeps effects = backoff n <$> seqZ 1 (k - 1) /\
    saves effects = [success out] /\
    used_fallback effects = negb (success out) && fallbackEnabled n.
Proof.
  intros Htok Hchat Hty Hmax.
  unfold sendNotification. rewrite Htok, Hchat, Hty. simpl.
  destruct (attempts_from n network data (Z.to_nat (maxRetries n)) 1)
    as (out & k & effects & Hrun & Hk & Hatt & Hfail & Hsucc & Hlast
        & Hposts & Hsleeps & Hsaves & Hfb); [lia|lia|].
  exists out, k, effects.
  replace (k - 1 + 1) with k in Hposts by lia.
  repeat split; auto; lia.
Qed.

(** X11: without a bot token or a chat id, or for a type that is switched
    off, [sendNotification] returns a failure with a reason at once:
    no request, no sleep, no fallback and no record. *)
Theorem sendNotification_gated n network ty (data : Data) :
  truthy (TG_BOT_TOKEN (env n)) && truthy (TG_CHAT_ID (env n))
    && notificationSettings (env n) ty = false ->
  exists out,
    sendNotification formatTelegramMessage n network ty data
      = (Some out, []) /\
    success out = false /\ attempt out = None /\
    usedFallback out = None /\ error_message out = None /\
    reason out <> None.
Proof.
  intros Hgate. unfold sendNotification.
  destruct (truthy (TG_BOT_TOKEN (env n))); simpl in *;
    [destruct (truthy (TG_CHAT_ID (env n))); simpl in *;
       [rewrite Hgate; simpl|]|];
    eexists; (split; [reflexivity|]); simpl; repeat split; discriminate.
Qed.

(** X12: a notifier as the constructor builds it makes at most three
    requests and spends at most 3000 ms in back-off sleeps, whatever the
    network does. *)
Theorem constructed_notifier_is_bounded e network ty (data : Data) :
  let effects :=
    snd (sendNotification formatTelegramMessage (new_notifier e)
           network ty data) in
  (length (posts effects) <= 3)%nat /\
  fold_right Z.add 0 (sleeps effects) <= 3000.
Proof.
  intros effects. subst effects.
  destruct (truthy (TG_BOT_TOKEN e) && truthy (TG_CHAT_ID e)
            && notificationSettings e ty) eqn:Hgate.
  - apply andb_true_iff in Hgate as [Hgate Hty].
    apply andb_true_iff in Hgate as [Htok Hchat].
    destruct (enabled_effects (new_notifier e) network ty data Htok Hchat Hty)
      as (k & Hk & Hposts & Hsleeps); [simpl; lia|].
    rewrite Hposts, Hsleeps. simpl in Hk.
    assert (k = 1 \/ k = 2 \/ k = 3) as Hcases by lia.
    destruct Hcases as [Hk1|[Hk1|Hk1]]; subst k;
      vm_compute; split; (lia || discriminate).
  - rewrite (gated_effects (new_notifier e) network ty data Hgate).
    simpl. split; [lia|discriminate].
Qed.

End Send.

(** X13: [saveNotificationToDB] never throws, whatever the database
    does; it hands over at most one row, none without a database
    binding; the stored message is the first 500 code units of the
    message, and the stored type and client address are never empty. *)
Theorem saveNotificationToDB_is_safe_and_bounded
    db data requestId message success :
  let result := saveNotificationToDB db data requestId message success in
  fst result = Normal tt /\
  (length (snd result) <= 1)%nat /\
  (db = None -> snd result = []) /\
  forall row, In row (snd result) ->
    row_message row = firstn 500 message /\
    (length (row_message row) <= 500)%nat /\
    ((length message <= 500)%nat -> row_message row = message) /\
    row_success row = success /\
    row_notification_type row <> [] /\
    row_client_ip row <> [].
Proof.
  intros result. subst result. unfold saveNotificationToDB.
  destruct db as [save|]; cbn [fst snd].
  - split; [now destruct (save _)|]. split; [simpl; lia|].
    split; [discriminate|].
    intros row [<-|[]].
    cbn [row_message row_success row_notification_type row_client_ip].
    unfold substring_from_0.
    split; [reflexivity|]. split; [rewrite length_take; lia|].
    split; [intros Hlen; now apply firstn_all2|]. split; [reflexivity|].
    split.
    + destruct (type data) as [[|c s]|]; simpl; discriminate.
    + destruct (client_ip data) as [[|c s]|]; simpl; discriminate.
  - split; [reflexivity|]. split; [simpl; lia|]. split; [reflexivity|].
    intros row [].
Qed.

Lemma sendNotification_stops_at_first_delivery_witness :
  exists out effects,
    sendNotification (fun _ : unit => lit "backend down")
      (new_notifier alerting_env) recovering_api error tt
      = (Some out, effects) /\
    success out = true /\ attempt out = Some 2 /\
    posts effects = [1; 2] /\ sleeps effects = [1000].
Proof.
  destruct (sendNotification_stops_at_first_delivery
              (fun _ : unit => lit "backend down")
              (new_notifier alerting_env) recovering_api error tt)
    as (out & k & effects & Hrun & Hk & Hatt & Hfail & Hsucc & _
        & Hposts & Hsleeps & _);
    try reflexivity; [vm_compute; discriminate|].
  exists out, effects.
  assert (k = 2) as ->.
  { vm_compute in Hrun. injection Hrun as <- _.
    vm_compute in Hatt. now injection Hatt as <-. }
  split; [exact Hrun|]. split; [exact Hsucc|]. split; [exact Hatt|].
  split; [exact Hposts|exact Hsleeps].
Defined.

Lemma sendNotification_gated_witness :
  exists out,
    sendNotification (fun _ : unit => lit "backend down")
      (new_notifier muted_env) unreachable_api error tt = (Some out, []) /\
    success out = false.
Proof.
  destruct (sendNotification_gated (fun _ : unit => lit "backend down")
              (new_notifier muted_env) unreachable_api error tt eq_refl)
    as (out & Hrun & Hs & _).
  exists out. split; [exact Hrun|exact Hs].
Defined.

Lemma saveNotificationToDB_is_safe_and_bounded_witness :
  fst (saveNotificationToDB (Some failing_store) bare_data
         (lit "req-9") long_message false) = Normal tt /\
  (length long_message = 600)%nat /\
  (forall row,
     In row (snd (saveNotificationToDB (Some failing_store) bare_data
                    (lit "req-9") long_message false)) ->
     (length (row_message row) <= 500)%nat /\
     row_client_ip row <> []).
Proof.
  destruct (saveNotificationToDB_is_safe_and_bounded (Some failing_store)
              bare_data (lit "req-9") long_message false)
    as (Hsafe & _ & _ & Hrows).
  split; [exact Hsafe|]. split; [vm_compute; reflexivity|].
  intros row Hin. destruct (Hrows row Hin) as (_ & Hlen & _ & _ & _ & Hip).
  split; [exact Hlen|exact Hip].
Defined.

End NotifierMoreFacts.

(* ===================================================================== *)
(** ** Properties of initDatabase *)
(* ===================================================================== *)

Module InitDatabaseFacts.
Import JsString Js InitDatabase Samples.

Section Db.
Context {D : Type} (exec : Statement -> D -> completion bool * D).
Implicit Types (st : Session (D := D)).

Lemma issue_log s st :
  log (snd (issue exec s st)) = log st ++ [s].
Proof. unfold issue. now destruct (exec s (db st)). Qed.

Lemma check_tables_log ts : forall n st,
  log (snd (check_tables exec ts n st)) = log st ++ (SelectTable <$> ts) /\
  n <= fst (check_tables exec ts n st) <= n + Z.of_nat (length ts).
Proof.
  induction ts as [|t ts IH]; intros n st; simpl.
  - rewrite app_nil_r. split; [reflexivity|lia].
  - pose proof (issue_log (SelectTable t) st) as Hl.
    destruct (issue exec (SelectTable t) st) as [c st']. simpl in Hl.
    destruct c as [[|]|e];
      [destruct (IH n st') as [H1 H2]
      |destruct (IH (n + 1) st') as [H1 H2]
      |destruct (IH n st') as [H1 H2]];
      rewrite H1, Hl, <- app_assoc; (split; [reflexivity|lia]).
Qed.






Lemma check_tables_none_missing ts : forall n st,
  (forall t d, fst (exec (SelectTable t) d) <> Normal false) ->
  fst (check_tables exec ts n st) = n.
Proof.
  induction ts as [|t ts IH]; intros n st Hfound; simpl; [reflexivity|].
  unfold issue. pose proof (Hfound t (db st)) as Ht.
  destruct (exec (SelectTable t) (db st)) as [[[|]|e] d']; simpl in *;
    [now apply IH|congruence|now apply IH].
Qed.

Lemma insert_backends_none_missing urls : forall m st,
  (forall u d, fst (exec (SelectBackend u) d) <> Normal false) ->
  fst (insert_backends exec urls m st) = m /\
  log (snd (insert_backends exec urls m st))
    = log st ++ (SelectBackend <$> urls).
Proof.
  induction urls as [|u urls IH]; intros m st Hfound; simpl.
  - now rewrite app_nil_r.
  - pose proof (issue_log (SelectBackend u) st) as Hl.
    unfold issue in *. pose proof (Hfound u (db st)) as Hu.
    destruct (exec (SelectBackend u) (db st)) as [[[|]|e] d']; simpl in *;
      try congruence;
      match goal with |- context [insert_backends exec urls m ?s] =>
        destruct (IH m s Hfound) as [H1 H2] end;
      rewrite H1, H2; simpl; rewrite <- app_assoc; now split.
Qed.


(** X16: when no table check reports a missing table and no look-up
    reports a missing backend (each finds a row, or fails), the script
    only reads: it issues the five table checks and the four look-ups,
    nothing else, and reports [success: true] with nothing created and
    nothing inserted.  This includes a database on which every statement
    fails. *)
Theorem initDatabase_reads_only d :
  (forall t d, fst (exec (SelectTable t) d) <> Normal false) ->
  (forall u d, fst (exec (SelectBackend u) d) <> Normal false) ->
  log (snd (initDatabase exec d))
    = (SelectTable <$> tables) ++ (SelectBackend <$> defaultBackends) /\
  fst (initDatabase exec d)
    = {| success := true; tables_checked := Some 5;
         tables_created := Some 0; default_backends_inserted := Some 0;
         error := None |}.
Proof.
  intros Htables Hbackends. unfold initDatabase.
  pose proof (check_tables_none_missing tables 0
                {| db := d; log := [] |} Htables) as Hn.
  destruct (check_tables_log tables 0 {| db := d; log := [] |}) as [Hlog _].
  destruct (check_tables exec tables 0 {| db := d; log := [] |})
    as [n st1]. cbn [fst snd log] in *. subst n. simpl app in Hlog.
  change (0 <? 0) with false. cbv iota.
  destruct (insert_backends_none_missing defaultBackends 0 st1 Hbackends)
    as [Hm Hl].
  destruct (insert_backends exec defaultBackends 0 st1) as [m st3].
  cbn [fst snd] in *. subst m. rewrite Hl, Hlog. now split.
Qed.

End Db.

Lemma initDatabase_reads_only_witness :
  fst (initDatabase broken_database tt)
    = {| success := true; tables_checked := Some 5;
         tables_created := Some 0; default_backends_inserted := Some 0;
         error := None |}.
Proof.
  apply (initDatabase_reads_only broken_database tt);
    intros s d; vm_compute; discriminate.
Defined.


End InitDatabaseFacts.

(* ===================================================================== *)
(** ** Further properties of version extraction *)
(* ===================================================================== *)

Module VersionMoreFacts.
Import JsString Regex Version VersionMore Samples.

Lemma trimStart_idem s : trimStart (trimStart s) = trimStart s.
Proof.
  induction s as [|c s IH]; simpl; [reflexivity|].
  destruct (is_space c) eqn:E; [exact IH|]. simpl. now rewrite E.
Qed.

Lemma trimStart_solid c s : is_space c = false -> trimStart (c :: s) = c :: s.
Proof. intros H. simpl. now rewrite H. Qed.

Lemma trimStart_head s :
  trimStart s = [] \/ exists c s', trimStart s = c :: s' /\ is_space c = false.
Proof.
  induction s as [|c s IH]; simpl; [now left|].
  destruct (is_space c) eqn:E; [exact IH|]. right. eauto.
Qed.

Lemma trimStart_snoc l c :
  is_space c = false -> trimStart (l ++ [c]) = trimStart l ++ [c].
Proof.
  intros Hc. induction l as [|a l IH]; simpl.
  - now rewrite Hc.
  - destruct (is_space a); [exact IH|reflexivity].
Qed.

Lemma trimEnd_solid c s :
  is_space c = false -> exists s', trimEnd (c :: s) = c :: s'.
Proof.
  intros Hc. unfold trimEnd. simpl rev.
  rewrite trimStart_snoc by exact Hc. rewrite rev_app_distr. simpl. eauto.
Qed.

Lemma trimEnd_idem s : trimEnd (trimEnd s) = trimEnd s.
Proof. unfold trimEnd. now rewrite rev_involutive, trimStart_idem. Qed.

Lemma trim_idem s : trim (trim s) = trim s.
Proof.
  unfold trim.
  destruct (trimStart_head s) as [->|(c & s' & -> & Hc)]; [reflexivity|].
  destruct (trimEnd_solid c s' Hc) as [s'' Hs].
  rewrite Hs at 1. rewrite trimStart_solid by exact Hc.
  rewrite <- Hs. apply trimEnd_idem.
Qed.

(** X17: white space around the text does not matter: the version
    extracted from a string is the version extracted from the string
    trimmed. *)
Theorem extractVersionFromText_ignores_outer_space s :
  extractVersionFromText (JString (trim s))
    = extractVersionFromText (JString s).
Proof.
  destruct s as [|c s]; [reflexivity|].
  cbn [extractVersionFromText].
  destruct (trim (c :: s)) as [|c' s'] eqn:Ht.
  - unfold extract_string. rewrite Ht. reflexivity.
  - unfold extract_string. rewrite <- Ht, trim_idem. reflexivity.
Qed.

Lemma scan_words_result words :
  scan_words words = sentinel \/
  exists word, In word words /\ looks_like_version word = true /\
               (length word <= 30)%nat /\
               scan_words words = lit "subconverter " ++ word.
Proof.
  induction words as [|w ws IH]; simpl; [now left|].
  destruct (looks_like_version w) eqn:Ev; simpl.
  - destruct (Nat.leb_spec (length w) 30).
    + right. exists w. auto.
    + destruct IH as [IH|(word & Hin & IH)]; [now left|].
      right. exists word. auto.
  - destruct IH as [IH|(word & Hin & IH)]; [now left|].
    right. exists word. auto.
Qed.

(** X18: when no version pattern matches the trimmed text, the result has
    at most 50 code units: it is the trimmed text itself if that has 1
    to 50 units, and otherwise the sentinel or the service name followed
    by a white-space separated piece of the text that looks like a
    version and has at most 30 units. *)
Theorem unmatched_text_result s :
  first_pattern versionPatterns (trim s) = None ->
  let result := extractVersionFromText (JString s) in
  (length result <= 50)%nat /\
  ((0 < length (trim s) <= 50)%nat -> result = trim s) /\
  ((50 < length (trim s))%nat ->
     result = sentinel \/
     exists word, In word (split (trim s)) /\
                  looks_like_version word = true /\
                  (length word <= 30)%nat /\
                  result = lit "subconverter " ++ word).
Proof.
  intros Hnone result. subst result.
  destruct s as [|c s].
  - simpl. split; [lia|]. split; intros H; simpl in H; lia.
  - cbn [extractVersionFromText]. unfold extract_string. rewrite Hnone.
    destruct (Nat.leb_spec (length (trim (c :: s))) 50) as [Hle|Hgt].
    + split; [|split].
      * destruct (trim (c :: s)); simpl in *; lia.
      * intros [Hpos _]. destruct (trim (c :: s)); [simpl in Hpos; lia|].
        reflexivity.
      * lia.
    + split; [|split]; [|lia|intros _; apply scan_words_result].
      destruct (scan_words_result (split (trim (c :: s))))
        as [->|(word & _ & _ & Hlen & ->)]; [simpl; lia|].
      rewrite length_app. simpl. lia.
Qed.

(** *** Matching a dotted number *)

Lemma match_lit_split icase p : forall s rest,
  match_lit icase p s = Some rest -> exists m, s = m ++ rest.
Proof.
  induction p as [|a p IH]; intros s rest H; simpl in H.
  - injection H as <-. now exists [].
  - destruct s as [|c s]; [discriminate|].
    destruct (char_eqb icase a c); [|discriminate].
    destruct (IH _ _ H) as [m ->]. now exists (c :: m).
Qed.

Lemma match_lit_exact p : forall s rest,
  match_lit false p s = Some rest -> s = p ++ rest.
Proof.
  induction p as [|a p IH]; intros s rest H; simpl in H.
  - now injection H as <-.
  - destruct s as [|c s]; [discriminate|].
    destruct (unit_eqb a c) eqn:E; [|discriminate].
    apply N.eqb_eq in E. subst c. simpl. f_equal. now apply IH.
Qed.

Lemma match_plus_split k : forall s x,
  In x (match_plus k s) -> exists m, s = m ++ x.
Proof.
  induction s as [|c s IH]; intros x H; simpl in H; [easy|].
  destruct (in_cls k c); [|easy].
  apply in_app_or in H as [H|[<-|[]]].
  - destruct (IH _ H) as [m ->]. now exists (c :: m).
  - now exists [c].
Qed.

(** What the matcher gives back is a suffix of what it got. *)
Lemma matches_split icase r : forall s x,
  In x (matches icase r s) -> exists m, s = m ++ x.
Proof.
  induction r as [p|k|r1 IH1 r2 IH2|r1 IH1]; intros s x H; simpl in H.
  - destruct (match_lit icase (lit p) s) as [rest|] eqn:E; [|easy].
    destruct H as [<-|[]]. eapply match_lit_split; eauto.
  - eapply match_plus_split; eauto.
  - apply in_flat_map in H as (mid & Hmid & Hx).
    destruct (IH1 _ _ Hmid) as [m1 ->]. destruct (IH2 _ _ Hx) as [m2 ->].
    exists (m1 ++ m2). now rewrite app_assoc.
  - apply in_app_or in H as [H|[<-|[]]]; [eauto|now exists []].
Qed.

Lemma consumes_in c r : consumes c r = true -> forall s x,
  In x (matches false r s) -> In c s.
Proof.
  induction r as [p|k|r1 IH1 r2 IH2|r1 IH1]; simpl; intros Hc s x H;
    try discriminate.
  - destruct (match_lit false (lit p) s) as [rest|] eqn:E; [|easy].
    apply match_lit_exact in E. subst s. apply in_or_app. left.
    apply existsb_exists in Hc as (u & Hu & Heq).
    apply N.eqb_eq in Heq. now subst u.
  - apply in_flat_map in H as (mid & Hmid & Hx).
    apply orb_true_iff in Hc as [Hc|Hc]; [eauto|].
    destruct (matches_split _ _ _ _ Hmid) as [m ->].
    apply in_or_app. right. eauto.
Qed.

Lemma search_without_consumed c p : forall s,
  icase p = false -> consumes c (re p) = true -> ~ In c s ->
  search p s = None.
Proof.
  intros s Hi Hc. induction s as [|u s IH]; intros Hn; simpl;
    unfold match_here; rewrite Hi.
  - destruct (matches false (re p) []) as [|x l] eqn:E; [reflexivity|].
    exfalso. apply Hn. eapply consumes_in; [exact Hc|].
    rewrite E. now left.
  - destruct (matches false (re p) (u :: s)) as [|x l] eqn:E.
    + apply IH. intros H. apply Hn. now right.
    + exfalso. apply Hn. eapply consumes_in; [exact Hc|].
      rewrite E. now left.
Qed.

Lemma matches_wrong_start a icase r s :
  starts_with_unit a r = true ->
  match s with c :: _ => char_eqb icase a c = false | [] => True end ->
  matches icase r s = [].
Proof.
  induction r as [p|k|r1 IH1 r2 IH2|r1 IH1]; simpl; intros Hr Hs;
    try discriminate.
  - destruct (lit p) as [|a' q]; [discriminate|].
    apply N.eqb_eq in Hr. subst a'.
    destruct s as [|c s]; simpl; [reflexivity|]. now rewrite Hs.
  - now rewrite IH1.
Qed.

Lemma search_wrong_start a p : forall s,
  starts_with_unit a (re p) = true ->
  forallb (fun c => negb (char_eqb (icase p) a c)) s = true ->
  search p s = None.
Proof.
  intros s Hr. induction s as [|u s IH]; intros Hs; simpl;
    unfold match_here.
  - now rewrite (matches_wrong_start a).
  - apply andb_true_iff in Hs as [Hu Hs]. apply negb_true_iff in Hu.
    rewrite (matches_wrong_start a); auto.
Qed.

Lemma match_plus_run k a : forall rest,
  a <> [] -> forallb (in_cls k) a = true ->
  match rest with c :: _ => in_cls k c = false | [] => True end ->
  exists alternatives, match_plus k (a ++ rest) = rest :: alternatives.
Proof.
  induction a as [|c a IH]; intros rest Hne Ha Hrest; [easy|].
  simpl in *. apply andb_true_iff in Ha as [Hc Ha]. rewrite Hc.
  destruct a as [|c' a'].
  - simpl. exists [].
    destruct rest as [|u rest']; simpl; [reflexivity|]. now rewrite Hrest.
  - destruct (IH rest) as [alt Halt]; [easy|exact Ha|exact Hrest|].
    rewrite Halt. simpl. eauto.
Qed.

Lemma matches_cat_first icase r1 r2 s x xs y ys :
  matches icase r1 s = x :: xs -> matches icase r2 x = y :: ys ->
  exists alternatives, matches icase (Cat r1 r2) s = y :: alternatives.
Proof. intros H1 H2. simpl. rewrite H1. simpl. rewrite H2. simpl. eauto. Qed.

Lemma search_here p s m : match_here p s = Some m -> search p s = Some m.
Proof. intros H. destruct s; simpl; now rewrite H. Qed.

Lemma includes_first s h p :
  includes s (h :: p) = true -> In h s.
Proof.
  induction s as [|c s IH]; simpl; [discriminate|].
  intros H. apply orb_true_iff in H as [H|H].
  - apply andb_true_iff in H as [H _]. apply N.eqb_eq in H. now left.
  - right. auto.
Qed.

Lemma toLowerCase_plain s :
  forallb digit_or_dot s = true -> toLowerCase s = s.
Proof.
  induction s as [|c s IH]; simpl; [reflexivity|].
  intros H. apply andb_true_iff in H as [Hc Hs].
  unfold toLowerCase in *. simpl. rewrite (IH Hs).
  assert (lower_unit c = [c]) as ->; [|reflexivity].
  unfold digit_or_dot, is_digit in Hc. unfold lower_unit, is_upper.
  apply orb_true_iff in Hc.
  rewrite andb_true_iff, !N.leb_le, N.eqb_eq in Hc.
  destruct (N.leb_spec 65 c), (N.leb_spec c 90), (N.eqb_spec c 8490),
    (N.eqb_spec c 304); simpl; try reflexivity; lia.
Qed.

Lemma digit_or_dot_facts c :
  digit_or_dot c = true ->
  is_space c = false /\ c <> 45%N /\ c <> 115%N /\
  char_eqb true 115 c = false /\ char_eqb true 118 c = false.
Proof.
  unfold digit_or_dot, is_digit, is_space, char_eqb, unit_eqb, upcase,
    is_lower.
  rewrite orb_true_iff, andb_true_iff, !N.leb_le, N.eqb_eq. intros Hc.
  change ((97 <=? 115)%N && (115 <=? 122)%N) with true.
  change ((97 <=? 118)%N && (118 <=? 122)%N) with true. cbv iota.
  change (115 - 32)%N with 83%N. change (118 - 32)%N with 86%N.
  rewrite !orb_false_iff, !andb_false_iff, !N.leb_gt, !N.eqb_neq.
  destruct (N.leb_spec 97 c), (N.leb_spec c 122); simpl;
    rewrite ?N.eqb_neq; repeat split; lia.
Qed.

Lemma dotted_units a b c :
  digits a -> digits b -> digits c ->
  forallb digit_or_dot (dotted a b c) = true.
Proof.
  intros [_ Ha] [_ Hb] [_ Hc]. unfold dotted.
  assert (forall l, forallb is_digit l = true ->
                    forallb digit_or_dot l = true) as Hd.
  { intros l Hl. apply forallb_forall. intros u Hu.
    unfold digit_or_dot. rewrite (proj1 (forallb_forall _ _) Hl u Hu).
    reflexivity. }
  rewrite !forallb_app, (Hd a), (Hd b), (Hd c) by assumption. reflexivity.
Qed.

Lemma dotted_matches a b c :
  digits a -> digits b -> digits c ->
  exists alternatives,
    matches false number_core (dotted a b c) = [] :: alternatives.
Proof.
  intros [Hna Ha] [Hnb Hb] [Hnc Hc]. unfold number_core, dotted.
  change (lit ".") with [46%N]. simpl app.
  destruct (match_plus_run Digit c []) as [alt5 H5]; auto.
  rewrite app_nil_r in H5.
  destruct (match_plus_run Digit b (46%N :: c)) as [alt3 H3]; auto.
  destruct (match_plus_run Digit a (46%N :: b ++ 46%N :: c)) as [alt1 H1];
    auto.
  assert (forall rest, matches false (Lit ".") (46%N :: rest) = [rest])
    as Hdot by reflexivity.
  destruct (matches_cat_first false (Lit ".") (Plus Digit)
              (46%N :: c) c [] [] alt5 (Hdot c) H5) as [alt4 H4].
  destruct (matches_cat_first false (Plus Digit) _
              (b ++ 46%N :: c) _ alt3 [] alt4 H3 H4) as [alt3' H3'].
  destruct (matches_cat_first false (Lit ".") _
              (46%N :: b ++ 46%N :: c) _ [] [] alt3' (Hdot _) H3')
    as [alt2 H2].
  exact (matches_cat_first false (Plus Digit) _ _ _ alt1 [] alt2 H1 H2).
Qed.

Lemma dotted_trim a b c :
  digits a -> digits b -> digits c -> trim (dotted a b c) = dotted a b c.
Proof.
  intros Ha Hb Hc.
  pose proof (dotted_units a b c Ha Hb Hc) as Hall.
  assert (forall u, In u (dotted a b c) -> is_space u = false) as Hsolid.
  { intros u Hu. apply digit_or_dot_facts.
    exact (proj1 (forallb_forall _ _) Hall u Hu). }
  unfold trim.
  assert (forall s, (forall u, In u s -> is_space u = false) ->
                    trimStart s = s) as Hstart.
  { intros [|u s] Hs; [reflexivity|].
    apply trimStart_solid, Hs. now left. }
  rewrite Hstart by exact Hsolid. unfold trimEnd.
  rewrite Hstart; [apply rev_involutive|].
  intros u Hu. apply Hsolid. now apply in_rev.
Qed.

(** X19: a bare dotted version number is given the service name and a
    [v]: for non-empty runs of digits [a], [b], [c] the version
    extracted from [a.b.c] is [subconverter va.b.c]. *)
Theorem dotted_number_is_prefixed a b c :
  digits a -> digits b -> digits c ->
  extractVersionFromText (JString (dotted a b c))
    = lit "subconverter v" ++ dotted a b c.
Proof.
  intros Ha Hb Hc.
  pose proof (dotted_units a b c Ha Hb Hc) as Hall.
  pose proof (dotted_trim a b c Ha Hb Hc) as Htrim.
  assert (forall u, In u (dotted a b c) -> digit_or_dot u = true) as Hunits
    by (intros u Hu; exact (proj1 (forallb_forall _ _) Hall u Hu)).
  assert (exists d t, dotted a b c = d :: t /\ is_digit d = true)
    as (d & t & Hhead & Hd).
  { destruct Ha as [Hna Ha]. destruct a as [|d a']; [easy|].
    exists d, (a' ++ lit "." ++ b ++ lit "." ++ c). split; [reflexivity|].
    simpl in Ha. now apply andb_true_iff in Ha as [Ha _]. }
  assert (first_pattern versionPatterns (dotted a b c)
          = Some (unify_format (dotted a b c))) as Hfirst.
  { unfold versionPatterns, first_pattern.
    rewrite (search_wrong_start 115); [|reflexivity|].
    2:{ apply forallb_forall. intros u Hu. apply negb_true_iff.
        now apply digit_or_dot_facts, Hunits. }
    rewrite (search_wrong_start 118); [|reflexivity|].
    2:{ apply forallb_forall. intros u Hu. apply negb_true_iff.
        now apply digit_or_dot_facts, Hunits. }
    rewrite (search_wrong_start 115); [|reflexivity|].
    2:{ apply forallb_forall. intros u Hu. apply negb_true_iff.
        now apply digit_or_dot_facts, Hunits. }
    rewrite (search_without_consumed 45); [|reflexivity|reflexivity|].
    2:{ intros Hin. now apply Hunits, digit_or_dot_facts in Hin. }
    destruct (dotted_matches a b c Ha Hb Hc) as [alt Hm].
    rewrite (search_here _ _ (dotted a b c)).
    - now rewrite Htrim.
    - unfold match_here. cbn [icase re]. rewrite Hm.
      simpl length. rewrite Nat.sub_0_r. now rewrite firstn_all. }
  assert (unify_format (dotted a b c) = lit "subconverter v" ++ dotted a b c)
    as Hformat.
  { unfold unify_format. rewrite toLowerCase_plain by exact Hall.
    destruct (includes (dotted a b c) (lit "subconverter")) eqn:Hinc.
    - apply includes_first in Hinc.
      now apply Hunits, digit_or_dot_facts in Hinc.
    - rewrite Hhead. cbn [startsWith lit list_ascii_of_string List.map].
      assert (unit_eqb (N_of_ascii "v") d = false) as ->.
      { unfold unit_eqb. apply N.eqb_neq. intros <-. discriminate. }
      simpl. now rewrite Hd. }
  rewrite Hhead at 1. cbn [extractVersionFromText]. rewrite <- Hhead.
  unfold extract_string. now rewrite Htrim, Hfirst, Hformat.
Qed.

Lemma dotted_number_is_prefixed_witness :
  extractVersionFromText (JString (lit "12.0.345"))
    = lit "subconverter v12.0.345".
Proof.
  apply (dotted_number_is_prefixed (lit "12") (lit "0") (lit "345"));
    (split; [discriminate|reflexivity]).
Defined.

Lemma extractVersionFromText_ignores_outer_space_witness :
  extractVersionFromText (JString (lit "  v0.9.9-7544246  "))
    = lit "subconverter v0.9.9-7544246".
Proof.
  rewrite <- extractVersionFromText_ignores_outer_space.
  vm_compute. reflexivity.
Defined.

Lemma unmatched_text_result_witness :
  first_pattern versionPatterns (trim (lit " hello world ")) = None /\
  extractVersionFromText (JString (lit " hello world ")) = lit "hello world".
Proof.
  assert (first_pattern versionPatterns (trim (lit " hello world ")) = None)
    as Hnone by (vm_compute; reflexivity).
  split; [exact Hnone|].
  destruct (unmatched_text_result _ Hnone) as (_ & Hshort & _).
  rewrite Hshort; [vm_compute; reflexivity|vm_compute; lia].
Defined.

End VersionMoreFacts.

(* ===================================================================== *)
(** ** Properties of the worker's entry points *)
(* ===================================================================== *)

Module WorkerFacts.
Import JsString Js Worker Samples.

(** Case analysis on what the hypotheses say about a list of actions. *)
Ltac cases :=
  repeat match goal with
         | H : _ \/ _ |- _ => destruct H
         | H : _ /\ _ |- _ => destruct H
         | H : ex _ |- _ => destruct H
         | H : False |- _ => destruct H
         end;
  try discriminate; try congruence.

Section Handlers.
Context {Resp : Type}.
Implicit Types (k : Collaborators (Resp := Resp)).

(** X20: [handleSubconverterRequestMain] proxies at most once and always
    through the streaming path: the value of [ENABLE_STREAMING_PROXY]
    changes nothing.  The weight it passes on is never 0 (a stored
    weight of 0, a missing one and a failed look-up all give 50), and
    it is 50 when no database is bound.  With an empty backend list
    it answers 503 without selecting a backend or alerting. *)
Theorem main_handler_always_streams k flag :
  let actions := snd (handleSubconverterRequestMain k) in
  handleSubconverterRequestMain (with_streaming_flag flag k)
    = handleSubconverterRequestMain k /\
  buffered actions = false /\
  (length (proxied_weights actions) <= 1)%nat /\
  (forall w, In w (proxied_weights actions) ->
     w <> 0 /\ (DB k = false -> w = 50)) /\
  (backends_length k = Normal (Some 0) ->
     handleSubconverterRequestMain k = (Normal (Plain 503), [])).
Proof.
  intros actions. subst actions. unfold handleSubconverterRequestMain.
  cbn [backends_length smartFindAvailableBackend DB getBackendStatus_weight
       streamProxyRequest ENABLE_STREAMING_PROXY with_streaming_flag].
  rewrite !orb_true_r.
  split; [reflexivity|].
  destruct (backends_length k) as [[[| |]|]|e]; cbn [snd];
    try (repeat split; simpl; try lia; try easy; fail);
    (destruct (smartFindAvailableBackend k) as [sel|e];
     [destruct (usable (backend sel)) as [u|]|]; cbn [snd];
     try (repeat split; simpl; try lia; try easy; fail));
    (split; [reflexivity|]; split; [simpl; lia|];
     split; [|intros H; discriminate]);
    intros w [<-|[]];
    (destruct (DB k);
     [destruct (getBackendStatus_weight k u) as [[[| |]|]|e]; simpl;
        split; (lia || discriminate)
     |split; [lia|reflexivity]]).
Qed.

(** X21: [fetch] answers every request.  When [validateConfig] throws
    the answer is 500 with one [global_error] alert, whatever the path.
    The status page and the API never alert and never proxy, also when
    they fail and the answer is 500.  An answer 500 built by [fetch]
    means that a collaborator threw, and any run raises at most one
    alert. *)
Theorem fetch_error_replies pathname k :
  let reply := fst (fetch pathname k) in
  let actions := snd (fetch pathname k) in
  (forall e, validateConfig k = Throw e ->
     reply = Plain 500 /\
     actions = [Notify (AlertError "global_error")]) /\
  (validateConfig k = Normal tt ->
   String.eqb pathname "/" || String.eqb pathname "/status"
     || is_api pathname = true ->
   actions = []) /\
  (reply = Plain 500 ->
     (exists e, validateConfig k = Throw e) \/
     (exists e, createEnhancedStatusPage k = Throw e) \/
     (exists e, handleApiRequest k = Throw e) \/
     (exists e, fst (handleSubconverterRequestMain k) = Throw e)) /\
  (length (alerts actions) <= 1)%nat.
Proof.
  intros reply actions. subst reply actions. unfold fetch.
  destruct (validateConfig k) as [[]|e0] eqn:Hv.
  - split; [intros e He; discriminate|].
    destruct (String.eqb pathname "/" || String.eqb pathname "/status")
      eqn:Hpage; [|destruct (is_api pathname) eqn:Hapi].
    + destruct (createEnhancedStatusPage k) as [r|e]; cbn [fst snd];
        repeat split; simpl; try lia; try discriminate; eauto.
    + destruct (handleApiRequest k) as [r|e]; cbn [fst snd];
        repeat split; simpl; try lia; try discriminate; eauto 6.
    + unfold handleSubconverterRequestMain.
      rewrite !orb_true_r.
      destruct (backends_length k) as [[[| |]|]|e];
        try (destruct (smartFindAvailableBackend k) as [sel|e];
             [destruct (usable (backend sel)) as [u|];
              [destruct (streamProxyRequest k u _ _) as [r|e]|]|]);
        cbn [fst snd passed handleGlobalError app];
        repeat split; simpl; try lia; try discriminate; eauto 8.
  - cbn [handleGlobalError fst snd].
    repeat split; simpl; try lia; try discriminate; eauto.
Qed.

(** X22: [scheduled] raises at most one alert.  It reports that every
    backend is down only when a database is bound and the check found
    no healthy backend; without a database binding that state is never
    reported.  It asks for the weekly clean-up only on day 0 with a
    database, and reports [cron_health_check_failed] exactly when the
    check throws. *)
Theorem scheduled_alerts k :
  let actions := scheduled k in
  (length (alerts actions) <= 1)%nat /\
  (In (Notify AlertHealthChange) actions <->
     DB k = true /\
     exists r, performFullHealthCheck k = Normal r /\ healthyBackends r = 0) /\
  (In (Cleanup 7) actions <->
     DB k = true /\ getUTCDay k = 0 /\
     exists r, performFullHealthCheck k = Normal r) /\
  (In (Notify (AlertError "cron_health_check_failed")) actions <->
     exists e, performFullHealthCheck k = Throw e).
Proof.
  intros actions. subst actions. unfold scheduled.
  destruct (performFullHealthCheck k) as [r|e].
  - destruct (Z.eqb_spec (getUTCDay k) 0) as [Hd|Hd];
      destruct (DB k);
      destruct (Z.eqb_spec (healthyBackends r) 0) as [Hh|Hh]; simpl;
      (split; [lia|]); repeat split; intros; cases; eauto.
  - simpl. split; [lia|]. repeat split; intros; cases; eauto.
Qed.

End Handlers.

Lemma main_handler_always_streams_witness :
  handleSubconverterRequestMain deployment
    = (Normal (Passed 200), [Proxy true "https://b1.example" 12 50]) /\
  (forall w, In w (proxied_weights
                     (snd (handleSubconverterRequestMain deployment))) ->
             w <> 0).
Proof.
  destruct (main_handler_always_streams deployment None)
    as (_ & _ & _ & Hw & _).
  split; [vm_compute; reflexivity|].
  intros w Hin. exact (proj1 (Hw w Hin)).
Defined.

Lemma fetch_error_replies_witness :
  fetch "/api/status" deployment = (Plain 500, []) /\
  snd (fetch "/api/status" deployment) = [].
Proof.
  destruct (fetch_error_replies "/api/status" deployment)
    as (_ & Hquiet & _).
  split; [vm_compute; reflexivity|].
  apply Hquiet; reflexivity.
Defined.

Lemma scheduled_alerts_witness :
  In (Notify AlertHealthChange) (scheduled deployment) /\
  ~ In (Cleanup 7) (scheduled deployment).
Proof.
  destruct (scheduled_alerts deployment) as (_ & [_ Halert] & [Hclean _] & _).
  split.
  - apply Halert. split; [reflexivity|]. eexists. split; reflexivity.
  - intros Hin. destruct (Hclean Hin) as (_ & Hday & _). discriminate.
Defined.

End WorkerFacts.
